(** * ChromeTabsPool: a pool of reusable Chrome tabs (src/index.js)

    The pool is an object mutated by four async methods ([require],
    [createTab], [release], [destroyPoll]) that run on one event loop.
    Every method body is a sequence of synchronous segments separated by
    [await]; a segment runs atomically, and between two segments of one
    call the segments of other calls may run.  The development models

    - the pool object and the tab entries it points to (a small heap, since
      [release] keeps a reference to the entry across its [await]);
    - every call in flight as a task that remembers at which [await] it is
      suspended;
    - one transition function [exec] that runs exactly one segment, chosen
      by an event: a fresh call, or the settlement of the promise a task is
      waiting for.  The browser's answers (target ids, connections,
      failures) are carried by the events.

    A call resumes from an [await] in a job of its own, queued when the
    awaited promise settles; jobs queued earlier run first.  So a promise
    that is already settled ([createTab] has returned, [resolve] has been
    called) and the continuation that waits for it are two steps here, and
    other segments may run between them.

    Line numbers are those of src/index.js. *)

From Stdlib Require Import String Ascii ZArith NArith List Lia Bool.
From stdpp Require Import base list.
Import ListNotations.
Local Open Scope string_scope.
Local Open Scope nat_scope.
Local Open Scope list_scope.

(** ** JavaScript objects used as string-keyed maps *)

Module JsObject.
Section Obj.
Context {V : Type}.

(** Own properties in creation order. *)
Definition t := list (string * V).

(** [o[k]] *)
Fixpoint get (k : string) (o : t) : option V :=
  match o with
  | [] => None
  | (k', v) :: r => if String.eqb k k' then Some v else get k r
  end.

(** [o[k] = v]: an existing property keeps its place, a new one is
    created last. *)
Fixpoint set (k : string) (v : V) (o : t) : t :=
  match o with
  | [] => [(k, v)]
  | (k', v') :: r =>
      if String.eqb k k' then (k, v) :: r else (k', v') :: set k v r
  end.

Definition digit (a : ascii) : option N :=
  let n := N_of_ascii a in
  if ((48 <=? n) && (n <=? 57))%N then Some (n - 48)%N else None.

Fixpoint decimal (acc : N) (s : string) : option N :=
  match s with
  | EmptyString => Some acc
  | String a r =>
      match digit a with
      | Some d => decimal (10 * acc + d)%N r
      | None => None
      end
  end.

(** A property name is an array index when it is the canonical decimal
    form of an integer between 0 and 2^32 - 2. *)
Definition array_index (s : string) : option N :=
  match s with
  | EmptyString => None
  | String a r =>
      if Ascii.eqb a "0"%char
      then match r with EmptyString => Some 0%N | _ => None end
      else match decimal 0 s with
           | Some n => if (n <=? 4294967294)%N then Some n else None
           | None => None
           end
  end.

Fixpoint insert_index (n : N) (k : string) (l : list (N * string))
  : list (N * string) :=
  match l with
  | [] => [(n, k)]
  | (m, k') :: r =>
      if (n <=? m)%N then (n, k) :: l else (m, k') :: insert_index n k r
  end.

Fixpoint index_keys (o : t) : list (N * string) :=
  match o with
  | [] => []
  | (k, _) :: r =>
      match array_index k with
      | Some n => insert_index n k (index_keys r)
      | None => index_keys r
      end
  end.

Fixpoint name_keys (o : t) : list string :=
  match o with
  | [] => []
  | (k, _) :: r =>
      match array_index k with
      | Some _ => name_keys r
      | None => k :: name_keys r
      end
  end.

(** [Object.keys(o)]: array indices in ascending order, then the other
    names in creation order. *)
Definition keys (o : t) : list string :=
  map snd (index_keys o) ++ name_keys o.

End Obj.
Arguments t : clear implicits.
End JsObject.

(** ** Data model *)

Abbreviation TabId := string (only parsing).
Abbreviation Loc := nat (only parsing).
Abbreviation TaskId := nat (only parsing).

(** What [connectTab] returns: [{tabId, Page, DOM, Runtime, Network}].  The
    four domain objects all belong to one protocol connection, which the
    model names by a number chosen by the browser side. *)
Record Client := { tabId : TabId; protocol : nat }.

(** An entry of [this.tabs]: [{free, client}]. *)
Record Tab := { free : bool; client : Client }.

(** [maxTab]: a number of tabs, [Infinity] by default. *)
Inductive Limit := Finite (n : Z) | Infinity.

(** [tabCount < this.maxTab] *)
Definition below (tabCount : nat) (m : Limit) : bool :=
  match m with
  | Finite n => (Z.of_nat tabCount <? n)%Z
  | Infinity => true
  end.

(** The fields of a [ChromeTabsPool]; [None] is [null].  [tabs] maps a tab
    id to the heap location of its entry; [requireResolveTasks] is the array
    of the [resolve] functions of parked [require] calls, each named by the
    task it resumes, index 0 first. *)
Record Pool := {
  port : option N;
  chromeLauncher : option nat;
  tabs : option (JsObject.t Loc);
  maxTab : Limit;
  requireResolveTasks : option (list TaskId)
}.

Inductive Error :=
| TypeError      (* property access on null or undefined *)
| Rejection.     (* the awaited browser operation was rejected *)

Inductive Value :=
| VUndefined
| VTabId (i : TabId)
| VClient (c : Client).

(** Who called [createTab]: user code, or [require] at line 138. *)
Inductive Caller := Direct | ByRequire.

(** Where a call is suspended, or how its promise was settled. *)
Inductive Status :=
| AwaitNew (who : Caller)
    (* createTab, line 120: await chrome.New *)
| AwaitConnect (who : Caller) (i : TabId) (base : bool)
    (* createTab, lines 123-126: await this.connectTab(id).  The target
       [this.tabs[id]] of the assignment is read before the await; [base]
       tells whether [this.tabs] was an object then.  When it was null the
       call ends rejected with a TypeError, here once connectTab has
       answered *)
| AwaitCreateTab (r : option TabId)
    (* require, line 138: createTab has returned [r] *)
| AwaitResolve (r : option TabId)
    (* require, line 141: parked ([None]) or resolved with an id *)
| AwaitNavigate (i : TabId) (tab : Loc)
    (* release, line 158: await Page.navigate, [tab] is the entry read
       at line 156 *)
| AwaitKill
    (* destroyPoll, line 171 *)
| Fulfilled (v : Value)
| Rejected (e : Error).

Record State := {
  pool : Pool;
  heap : list Tab;
  tasks : list Status
}.

(** What a segment did to the callers and to the queue, recorded for the
    statements about runs. *)
Inductive Obs :=
| Granted (t : TaskId) (c : Client)   (* require returned [c] to call [t] *)
| Enqueued (t : TaskId)               (* line 142: unshift *)
| Dequeued (t : TaskId) (i : TabId)   (* lines 161-162: pop and resolve *)
| ReleaseCalled (i : TabId)           (* release(i) reached line 158 *)
| MarkedFree (i : TabId).             (* line 159 *)

(** What the event loop runs next: the first segment of a new call, or
    the continuation of call [t] with the answer of the browser operation it
    awaits ([None] or [false]: the operation was rejected), or, for
    [Continue], the continuation of a [require] whose awaited promise is
    fulfilled. *)
Inductive Event :=
| CallRequire
| CallCreateTab
| CallRelease (i : TabId)
| CallDestroyPoll
| NewReply (t : TaskId) (r : option TabId)
| ConnectReply (t : TaskId) (r : option nat)
| NavigateReply (t : TaskId) (ok : bool)
| KillReply (t : TaskId) (ok : bool)
| Continue (t : TaskId).

(** ** The methods, segment by segment *)

Definition set_free (b : bool) (tab : Tab) : Tab :=
  {| free := b; client := client tab |}.

Definition with_pool (p : Pool) (s : State) : State :=
  {| pool := p; heap := heap s; tasks := tasks s |}.

Definition with_heap (h : list Tab) (s : State) : State :=
  {| pool := pool s; heap := h; tasks := tasks s |}.

(** A fresh call: its task is numbered by the calls made so far. *)
Definition spawn (st : Status) (s : State) : State :=
  {| pool := pool s; heap := heap s; tasks := tasks s ++ [st] |}.

Definition settle (t : TaskId) (st : Status) (s : State) : State :=
  {| pool := pool s; heap := heap s; tasks := <[t := st]> (tasks s) |}.

Definition status (s : State) (t : TaskId) : option Status := tasks s !! t.

(** [this.tabs[id].free], the callback of [find] at line 136.  The ids
    given to it are keys of [this.tabs], and every location stored in
    [this.tabs] is allocated, so the two [None] cases do not arise. *)
Definition is_free (h : list Tab) (o : JsObject.t Loc) (i : TabId) : bool :=
  match JsObject.get i o with
  | Some l => match h !! l with Some tab => free tab | None => false end
  | None => false
  end.

(** What a [createTab] that returns [r] leaves its caller with: user code
    gets the value; [require] resumes from its await at line 138. *)
Definition returned (who : Caller) (r : option TabId) : Status :=
  match who with
  | Direct =>
      Fulfilled (match r with Some i => VTabId i | None => VUndefined end)
  | ByRequire => AwaitCreateTab r
  end.

(** [createTab], lines 115-120: up to the await of [chrome.New], or the
    return of [undefined] when the count is not below [maxTab]. *)
Definition createTab_begin (who : Caller) (p : Pool) : Status :=
  match tabs p with
  | None => Rejected TypeError
  | Some o =>
      if below (length (JsObject.keys o)) (maxTab p)
      then AwaitNew who
      else returned who None
  end.

(** [createTab], lines 123-127, after [connectTab] has returned the client:
    the entry is created free and stored under [id] in the object that
    [this.tabs] was when line 123 began.  After [destroyPoll] that object is
    no longer reachable from the pool, and the store leaves the pool as it
    is. *)
Definition createTab_register (who : Caller) (i : TabId) (base : bool)
  (pr : nat) (s : State) : State * Status :=
  if base then
    let l := length (heap s) in
    let tab := {| free := true; client := {| tabId := i; protocol := pr |} |} in
    let p := pool s in
    let p' := {| port := port p; chromeLauncher := chromeLauncher p;
                 tabs := option_map (JsObject.set i l) (tabs p);
                 maxTab := maxTab p;
                 requireResolveTasks := requireResolveTasks p |} in
    ({| pool := p'; heap := heap s ++ [tab]; tasks := tasks s |},
     returned who (Some i))
  else (s, Rejected TypeError).

(** [require], lines 146-148: mark the entry busy and return its client. *)
Definition require_take (t : TaskId) (i : TabId) (s : State)
  : State * Status * list Obs :=
  match tabs (pool s) with
  | None => (s, Rejected TypeError, [])
  | Some o =>
      match JsObject.get i o with
      | None => (s, Rejected TypeError, [])
      | Some l =>
          match heap s !! l with
          | None => (s, Rejected TypeError, [])
          | Some tab =>
              (with_heap (<[l := set_free false tab]> (heap s)) s,
               Fulfilled (VClient (client tab)),
               [Granted t (client tab)])
          end
      end
  end.

(** [require], lines 136-138: take the first free tab, else call
    [createTab]. *)
Definition require_begin (t : TaskId) (s : State)
  : State * Status * list Obs :=
  match tabs (pool s) with
  | None => (s, Rejected TypeError, [])
  | Some o =>
      match find (is_free (heap s) o) (JsObject.keys o) with
      | Some i => require_take t i s
      | None => (s, createTab_begin ByRequire (pool s), [])
      end
  end.

(** [require], lines 140-144: no tab could be created; the call parks its
    [resolve] at the front of [requireResolveTasks]. *)
Definition require_park (t : TaskId) (s : State)
  : State * Status * list Obs :=
  let p := pool s in
  match requireResolveTasks p with
  | None => (s, Rejected TypeError, [])
  | Some q =>
      (with_pool {| port := port p; chromeLauncher := chromeLauncher p;
                    tabs := tabs p; maxTab := maxTab p;
                    requireResolveTasks := Some (t :: q) |} s,
       AwaitResolve None, [Enqueued t])
  end.

(** [release], lines 156-158: read the entry and start the navigation. *)
Definition release_begin (i : TabId) (s : State) : Status * list Obs :=
  match tabs (pool s) with
  | None => (Rejected TypeError, [])
  | Some o =>
      match JsObject.get i o with
      | None => (Rejected TypeError, [])
      | Some l => (AwaitNavigate i l, [ReleaseCalled i])
      end
  end.

(** [resolve(tabId)] on the promise a parked call awaits. *)
Definition resolve (w : TaskId) (i : TabId) (ts : list Status)
  : list Status :=
  match ts !! w with
  | Some (AwaitResolve None) => <[w := AwaitResolve (Some i)]> ts
  | _ => ts
  end.

(** [release], lines 159-163: mark the entry free, then pop the last
    element of [requireResolveTasks], if any, and resolve it with the id. *)
Definition release_finish (i : TabId) (l : Loc) (s : State)
  : State * Status * list Obs :=
  let h := match heap s !! l with
           | Some tab => <[l := set_free true tab]> (heap s)
           | None => heap s
           end in
  let p := pool s in
  match requireResolveTasks p with
  | None => (with_heap h s, Rejected TypeError, [MarkedFree i])
  | Some q =>
      match last q with
      | None => (with_heap h s, Fulfilled VUndefined, [MarkedFree i])
      | Some w =>
          ({| pool := {| port := port p; chromeLauncher := chromeLauncher p;
                         tabs := tabs p; maxTab := maxTab p;
                         requireResolveTasks := Some (removelast q) |};
              heap := h;
              tasks := resolve w i (tasks s) |},
           Fulfilled VUndefined, [MarkedFree i; Dequeued w i])
      end
  end.

(** [destroyPoll], lines 172-175. *)
Definition destroyPoll_finish (s : State) : State :=
  with_pool {| port := None; chromeLauncher := None; tabs := None;
               maxTab := maxTab (pool s);
               requireResolveTasks := None |} s.

(** One segment.  [None]: the event does not fit the task it names. *)
Definition exec (e : Event) (s : State) : option (State * list Obs) :=
  match e with
  | CallRequire =>
      let '(s', st, o) := require_begin (length (tasks s)) s in
      Some (spawn st s', o)
  | CallCreateTab =>
      Some (spawn (createTab_begin Direct (pool s)) s, [])
  | CallRelease i =>
      let '(st, o) := release_begin i s in Some (spawn st s, o)
  | CallDestroyPoll =>
      match chromeLauncher (pool s) with
      | None => Some (spawn (Rejected TypeError) s, [])
      | Some _ => Some (spawn AwaitKill s, [])
      end
  | NewReply t r =>
      match status s t with
      | Some (AwaitNew who) =>
          match r with
          | None => Some (settle t (Rejected Rejection) s, [])
          | Some i =>
              Some (settle t (AwaitConnect who i
                                (bool_decide (is_Some (tabs (pool s))))) s, [])
          end
      | _ => None
      end
  | ConnectReply t r =>
      match status s t with
      | Some (AwaitConnect who i base) =>
          match r with
          | None => Some (settle t (Rejected Rejection) s, [])
          | Some pr =>
              let '(s', st) := createTab_register who i base pr s in
              Some (settle t st s', [])
          end
      | _ => None
      end
  | Continue t =>
      match status s t with
      | Some (AwaitCreateTab (Some i)) | Some (AwaitResolve (Some i)) =>
          let '(s', st, o) := require_take t i s in Some (settle t st s', o)
      | Some (AwaitCreateTab None) =>
          let '(s', st, o) := require_park t s in Some (settle t st s', o)
      | _ => None
      end
  | NavigateReply t ok =>
      match status s t with
      | Some (AwaitNavigate i l) =>
          if ok then
            let '(s', st, o) := release_finish i l s in
            Some (settle t st s', o)
          else Some (settle t (Rejected Rejection) s, [])
      | _ => None
      end
  | KillReply t ok =>
      match status s t with
      | Some AwaitKill =>
          if ok then Some (settle t (Fulfilled VUndefined)
                             (destroyPoll_finish s), [])
          else Some (settle t (Rejected Rejection) s, [])
      | _ => None
      end
  end.

(** A run: the segments in the order the event loop ran them, with what
    they did. *)
Fixpoint run (es : list Event) (s : State) : option (State * list Obs) :=
  match es with
  | [] => Some (s, [])
  | e :: r =>
      match exec e s with
      | None => None
      | Some (s', o) =>
          match run r s' with
          | None => None
          | Some (s'', o') => Some (s'', o ++ o')
          end
      end
  end.

(** ** Construction *)

(** An element of what [chrome.List] returns. *)
Record Target := { id : TabId; type : string }.

(** The loop of lines 70-80.  [connectTab i] is the protocol connection the
    browser gives for tab [i], or [None] when connecting is rejected, which
    rejects the whole construction. *)
Fixpoint connect_pages (connectTab : TabId -> option nat)
  (targets : list Target) (o : JsObject.t Loc) (h : list Tab)
  : option (JsObject.t Loc * list Tab) :=
  match targets with
  | [] => Some (o, h)
  | tg :: rest =>
      if String.eqb (type tg) "page" then
        match connectTab (id tg) with
        | None => None
        | Some pr =>
            connect_pages connectTab rest
              (JsObject.set (id tg) (length h) o)
              (h ++ [{| free := true;
                        client := {| tabId := id tg; protocol := pr |} |}])
        end
      else connect_pages connectTab rest o h
  end.

(** [ChromeTabsPool.new(maxTab)], from line 59 on: [prt] is the port found
    by [sysFreePort], [launcher] the launched Chrome, [targets] the answer of
    [chrome.List]. *)
Definition new (m : Limit) (prt : N) (launcher : nat) (targets : list Target)
  (connectTab : TabId -> option nat) : option State :=
  match connect_pages connectTab targets [] [] with
  | None => None
  | Some (o, h) =>
      Some {| pool := {| port := Some prt; chromeLauncher := Some launcher;
                         tabs := Some o; maxTab := m;
                         requireResolveTasks := Some [] |};
              heap := h; tasks := [] |}
  end.

(** ** Reading a state *)

(** The entry registered under an id. *)
Definition entry (s : State) (i : TabId) : option Tab :=
  match tabs (pool s) with
  | None => None
  | Some o =>
      match JsObject.get i o with
      | Some l => heap s !! l
      | None => None
      end
  end.

(** [Object.keys(this.tabs).length] *)
Definition tabCount (s : State) : option nat :=
  option_map (fun o => length (JsObject.keys o)) (tabs (pool s)).

(** The calls that hold tab [i] after a run: those [require] handed its
    client to since the last [release(i)] began or marked it free. *)
Fixpoint holders (i : TabId) (acc : list TaskId) (log : list Obs)
  : list TaskId :=
  match log with
  | [] => acc
  | Granted t c :: r =>
      holders i (if String.eqb (tabId c) i then acc ++ [t] else acc) r
  | ReleaseCalled j :: r | MarkedFree j :: r =>
      holders i (if String.eqb j i then [] else acc) r
  | _ :: r => holders i acc r
  end.

(** The parked calls in the order they were enqueued, and the calls taken
    off the queue in the order they were resolved. *)
Fixpoint enqueued (log : list Obs) : list TaskId :=
  match log with
  | [] => []
  | Enqueued t :: r => t :: enqueued r
  | _ :: r => enqueued r
  end.

Fixpoint dequeued (log : list Obs) : list TaskId :=
  match log with
  | [] => []
  | Dequeued t _ :: r => t :: dequeued r
  | _ :: r => dequeued r
  end.

(** A pool as the launcher usually leaves it: one page target and one
    background target. *)
Definition launched (m : Limit) : option State :=
  new m 9222%N 1
    [ {| id := "T0"; type := "page" |};
      {| id := "BG"; type := "background_page" |} ]
    (fun _ => Some 0).

(** ** Predicates used in the statements *)

Definition is_page (tg : Target) : Prop := type tg = "page".

(** Every registered id points to a free entry whose client is connected to
    that very tab. *)
Definition fresh_registry (o : JsObject.t Loc) (h : list Tab) : Prop :=
  forall i l, JsObject.get i o = Some l ->
    exists tab, h !! l = Some tab /\ free tab = true /\ tabId (client tab) = i.

(** After [destroyPoll]: the four fields set to [null] at lines 172-175. *)
Definition destroyed (p : Pool) : Prop :=
  port p = None /\ chromeLauncher p = None /\ tabs p = None /\
  requireResolveTasks p = None.

(** A parked [require]: suspended at line 141, its [resolve] not called. *)
Definition parked (s : State) (w : TaskId) : Prop :=
  status s w = Some (AwaitResolve None).

(** ** Concrete pools and runs *)

(** The pool [launched m] builds. *)
Definition one_tab (m : Limit) : State :=
  {| pool := {| port := Some 9222%N; chromeLauncher := Some 1;
                tabs := Some [("T0", 0)]; maxTab := m;
                requireResolveTasks := Some [] |};
     heap := [{| free := true;
                 client := {| tabId := "T0"; protocol := 0 |} |}];
     tasks := [] |}.

(** The state a run ends in. *)
Definition state_after (es : list Event) (s : State) : State :=
  match run es s with
  | Some (s', _) => s'
  | None => s
  end.

(** With [maxTab = 1] and the one tab of [one_tab]: call 0 takes "T0",
    call 1 finds nothing free, cannot create, and parks. *)
Definition saturate : list Event :=
  [CallRequire; CallRequire; Continue 1].

(** Call 2 releases "T0"; the navigation succeeds. *)
Definition handoff : list Event :=
  saturate ++ [CallRelease "T0"; NavigateReply 2 true].

(** A third [require] (call 3) runs before the continuation of call 1. *)
Definition double_grant : list Event :=
  handoff ++ [CallRequire; Continue 1].

(** Call 2 destroys the pool while call 1 is parked. *)
Definition teardown : list Event :=
  saturate ++ [CallDestroyPoll; KillReply 2 true].

(** Call 2 releases "T0" and the navigation to about:blank is rejected. *)
Definition failed_reset : list Event :=
  saturate ++ [CallRelease "T0"; NavigateReply 2 false].

(** With [maxTab = 2]: call 0 takes "T0"; calls 1 and 2 both find one tab
    registered, both ask the browser for a new tab, and both register
    theirs. *)
Definition over_limit : list Event :=
  [CallRequire; CallRequire; CallRequire;
   NewReply 1 (Some "T1"); NewReply 2 (Some "T2");
   ConnectReply 1 (Some 1); ConnectReply 2 (Some 2)].

(** [release("T0")] on a pool whose tab "T0" is free. *)
Definition release_free : list Event :=
  [CallRelease "T0"; NavigateReply 0 true].

Definition client0 : Client := {| tabId := "T0"; protocol := 0 |}.


(** First in, first out: the calls taken off the queue so far, in that
    order, are the first of the calls that were enqueued, in that order, and
    those still waiting are the content of the array, last index first. *)
Definition fifo (s : State) (log : list Obs) : Prop :=
  exists waiting,
    enqueued log = dequeued log ++ waiting /\
    forall q, requireResolveTasks (pool s) = Some q -> waiting = rev q.

(** The three things a segment can do to the wait queue: leave it alone
    (or null it, in [destroyPoll]); put the parking call in front; take the
    last element off and resolve it. *)
Inductive queue_step (s s' : State) (o : list Obs) : Prop :=
| QueueKept :
    enqueued o = [] -> dequeued o = [] ->
    requireResolveTasks (pool s') = requireResolveTasks (pool s) \/
    requireResolveTasks (pool s') = None ->
    queue_step s s' o
| QueueUnshift t q :
    requireResolveTasks (pool s) = Some q ->
    requireResolveTasks (pool s') = Some (t :: q) ->
    enqueued o = [t] -> dequeued o = [] ->
    queue_step s s' o
| QueuePop w q :
    requireResolveTasks (pool s) = Some q ->
    last q = Some w ->
    requireResolveTasks (pool s') = Some (removelast q) ->
    enqueued o = [] -> dequeued o = [w] ->
    queue_step s s' o.

(** The array holds each parked call once, and nothing else. *)
Definition queue_sound (s : State) : Prop :=
  forall q, requireResolveTasks (pool s) = Some q ->
    NoDup q /\ forall w, In w q <-> parked s w.

(** Every location the pool or a suspended [release] refers to is
    allocated. *)
Definition heap_wf (s : State) : Prop :=
  (forall o i l, tabs (pool s) = Some o -> JsObject.get i o = Some l ->
     l < length (heap s)) /\
  (forall t i l, status s t = Some (AwaitNavigate i l) ->
     l < length (heap s)).


(** ** Further predicates: the store and the registry *)

(** The four things a segment can do to the entries and the registry:
    nothing (or null the registry, in [destroyPoll]); write [free = false]
    into one entry (line 147) and return its client; write [free = true]
    into one entry (line 159); create one entry, free, and store it under
    its id (lines 123-126). *)
Inductive store_step (s s' : State) (o : list Obs) : Prop :=
| StoreKept :
    heap s' = heap s ->
    tabs (pool s') = tabs (pool s) \/ tabs (pool s') = None ->
    store_step s s' o
| StoreBusy l tab t :
    heap s !! l = Some tab ->
    heap s' = <[l := set_free false tab]> (heap s) ->
    tabs (pool s') = tabs (pool s) ->
    In (Granted t (client tab)) o ->
    store_step s s' o
| StoreFree l tab i :
    heap s !! l = Some tab ->
    heap s' = <[l := set_free true tab]> (heap s) ->
    tabs (pool s') = tabs (pool s) ->
    In (MarkedFree i) o ->
    store_step s s' o
| StoreNew i pr :
    heap s' = heap s ++
      [{| free := true; client := {| tabId := i; protocol := pr |} |}] ->
    tabs (pool s') = option_map (JsObject.set i (length (heap s))) (tabs (pool s)) ->
    store_step s s' o.

(** The registry of a live pool: every id leads to an entry, the client of
    that entry is connected to the tab of that id, and two ids never share
    an entry. *)
Definition registry_wf (s : State) : Prop :=
  forall o, tabs (pool s) = Some o ->
    (forall i l, JsObject.get i o = Some l ->
       exists tab, heap s !! l = Some tab /\ tabId (client tab) = i) /\
    (forall i j l, JsObject.get i o = Some l -> JsObject.get j o = Some l ->
       i = j).

(** The registry [o'] has every id of [o], and at least as many. *)
Definition extends (o o' : JsObject.t nat) : Prop :=
  (forall i, is_Some (JsObject.get i o) -> is_Some (JsObject.get i o')) /\
  length (JsObject.keys o) <= length (JsObject.keys o').

(** A [require] that got [undefined] from [createTab]: suspended at line
    138 with that answer, or parked at line 141. *)
Definition waiting_for_tab (st : Status) : bool :=
  match st with
  | AwaitCreateTab None | AwaitResolve None => true
  | _ => false
  end.

(** The test of line 116 fails: the count is not below [maxTab]. *)
Definition full (s : State) : Prop :=
  exists o, tabs (pool s) = Some o /\
    below (length (JsObject.keys o)) (maxTab (pool s)) = false.

(** A call inside [createTab] between the test of line 116 and the store of
    line 123. *)
Definition is_creating (st : Status) : bool :=
  match st with
  | AwaitNew _ | AwaitConnect _ _ _ => true
  | _ => false
  end.

(** How many calls are creating a tab. *)
Definition creating (s : State) : nat :=
  length (List.filter is_creating (tasks s)).



(** With [maxTab = 2]: call 0 takes "T0", call 1 creates "T1" and takes
    it, and only then call 2 asks, finds the pool full and parks. *)
Definition one_by_one : list Event :=
  [CallRequire; CallRequire; NewReply 1 (Some "T1"); ConnectReply 1 (Some 1);
   Continue 1; CallRequire; Continue 2].

(** Every client handed out so far belongs to a tab that is registered (as
    long as the registry has not been nulled). *)
Definition grants_registered (s : State) (log : list Obs) : Prop :=
  forall t c, In (Granted t c) log ->
    forall o, tabs (pool s) = Some o -> is_Some (JsObject.get (tabId c) o).

(** With [maxTab = 2]: call 0 takes "T0", call 1 creates "T1" and takes
    it, calls 2 and 3 park, in that order; call 4 releases "T0", which
    resolves call 2, and call 2 resumes with "T0"; call 5 releases "T1" and
    is at its await. *)
Definition two_waiters_one_served : list Event :=
  [CallRequire; CallRequire; NewReply 1 (Some "T1"); ConnectReply 1 (Some 1);
   Continue 1; CallRequire; Continue 2; CallRequire; Continue 3;
   CallRelease "T0"; NavigateReply 4 true; Continue 2; CallRelease "T1"].

(** ** The whole of construction *)

Module ChromeTabsPool.

(** [static async new(maxTab = Infinity)], lines 57-82, from its first
    line: [sysFreePort] is the port the system gives, or [None] when
    listening fails (line 58); [launchChrome port] the launcher, or [None]
    when the launch is rejected (line 61); [chromeList port] the targets
    that [chrome.List] answers, or [None] when it is rejected (line 68);
    [connectTab port id] the connection to a tab of the browser on that
    port.  Each rejection rejects [new]; after the three awaits the method
    goes on as [new] above does.  [maxTab] is [None] when the argument is
    left out. *)
Definition new (maxTab : option Limit) (sysFreePort : option N)
  (launchChrome : N -> option nat) (chromeList : N -> option (list Target))
  (connectTab : N -> TabId -> option nat) : option State :=
  match sysFreePort with
  | None => None
  | Some prt =>
      match launchChrome prt with
      | None => None
      | Some launcher =>
          match chromeList prt with
          | None => None
          | Some targets =>
              new (match maxTab with Some m => m | None => Infinity end)
                prt launcher targets (connectTab prt)
          end
      end
  end.

End ChromeTabsPool.

(** ** Lemmas on objects *)

Module JsObjectFacts.
Import JsObject.
Section Facts.
Context {V : Type}.
Implicit Types (o : JsObject.t V) (k : string) (v : V).

Lemma get_set_eq o k v : get k (set k v o) = Some v.
Proof.
  induction o as [|[k' v'] r IH]; simpl.
  - now rewrite String.eqb_refl.
  - destruct (String.eqb k k') eqn:E; simpl; rewrite ?E; auto.
    now rewrite String.eqb_refl.
Qed.

Lemma get_set_ne o k k' v : k <> k' -> get k' (set k v o) = get k' o.
Proof.
  intros Hne. induction o as [|[k0 v0] r IH]; simpl.
  - destruct (String.eqb k' k) eqn:E; auto.
    apply String.eqb_eq in E. congruence.
  - destruct (String.eqb k k0) eqn:E; simpl.
    + apply String.eqb_eq in E. subst k0.
      destruct (String.eqb k' k) eqn:E'; auto.
      apply String.eqb_eq in E'. congruence.
    + now rewrite IH.
Qed.

Lemma length_set_new o k v :
  get k o = None -> length (set k v o) = S (length o).
Proof.
  induction o as [|[k' v'] r IH]; simpl; auto.
  destruct (String.eqb k k'); [discriminate|].
  intros H. simpl. now rewrite IH.
Qed.

Lemma length_insert_index n k l :
  length (insert_index n k l) = S (length l).
Proof.
  induction l as [|[m k'] r IH]; simpl; auto.
  destruct (n <=? m)%N; simpl; auto.
Qed.

(** [Object.keys] lists every property once. *)
Lemma length_keys o : length (keys o) = length o.
Proof.
  unfold keys. rewrite length_app, length_map.
  induction o as [|[k v] r IH]; simpl; auto.
  destruct (array_index k); simpl.
  - rewrite length_insert_index. simpl. now rewrite IH.
  - rewrite Nat.add_succ_r. now rewrite IH.
Qed.

End Facts.
End JsObjectFacts.

Import JsObjectFacts.

(** ** Construction registers the page targets *)

Lemma connect_pages_spec connectTab targets : forall o h,
  fresh_registry o h ->
  (forall tg, In tg targets -> is_page tg -> connectTab (id tg) <> None) ->
  exists o' h', connect_pages connectTab targets o h = Some (o', h') /\
    fresh_registry o' h' /\
    (forall i, is_Some (JsObject.get i o') <->
               is_Some (JsObject.get i o) \/
               exists tg, In tg targets /\ is_page tg /\ id tg = i).
Proof.
  induction targets as [|tg rest IH]; intros o h Hreg Hconn; simpl.
  - exists o, h. split; [reflexivity|]. split; [assumption|].
    intros i. split; [auto|]. intros [H|(tg & [] & _)]. exact H.
  - destruct (String.eqb (type tg) "page") eqn:Hty.
    + apply String.eqb_eq in Hty.
      destruct (connectTab (id tg)) as [pr|] eqn:Hc.
      2:{ exfalso. apply (Hconn tg); auto. now left. }
      set (tab := {| free := true;
                     client := {| tabId := id tg; protocol := pr |} |}).
      destruct (IH (JsObject.set (id tg) (length h) o) (h ++ [tab]))
        as (o' & h' & Hrun & Hreg' & Hkeys).
      * intros i l Hget.
        destruct (String.eqb_spec (id tg) i) as [E|Hne].
        -- rewrite <- E, get_set_eq in Hget. injection Hget as <-.
           exists tab. split; [|split; [reflexivity|exact E]].
           rewrite lookup_app_r by lia. now rewrite Nat.sub_diag.
        -- rewrite get_set_ne in Hget by assumption.
           destruct (Hreg i l Hget) as (tab' & Hl & Hf & Hi).
           exists tab'. split; [|split; assumption].
           rewrite lookup_app_l; [assumption|].
           eapply lookup_lt_Some; eassumption.
      * intros tg' Hin. apply Hconn. now right.
      * exists o', h'. split; [assumption|]. split; [assumption|].
        intros i. rewrite Hkeys. split.
        -- intros [Hs|(tg' & Hin & Hp & Hi)].
           ++ destruct (String.eqb_spec (id tg) i) as [<-|Hne].
              ** right. exists tg. split; [now left|]. split; auto.
              ** left. now rewrite get_set_ne in Hs.
           ++ right. exists tg'. split; [now right|]. split; auto.
        -- intros [Hs|(tg' & [->|Hin] & Hp & Hi)].
           ++ left. destruct (String.eqb_spec (id tg) i) as [<-|Hne].
              ** rewrite get_set_eq. eexists; reflexivity.
              ** now rewrite get_set_ne.
           ++ left. subst i. rewrite get_set_eq. eexists; reflexivity.
           ++ right. exists tg'. split; auto.
    + destruct (IH o h Hreg) as (o' & h' & Hrun & Hreg' & Hkeys).
      * intros tg' Hin. apply Hconn. now right.
      * exists o', h'. split; [assumption|]. split; [assumption|].
        intros i. rewrite Hkeys. split.
        -- intros [Hs|(tg' & Hin & Hp & Hi)]; [now left|].
           right. exists tg'. split; [now right|]. split; auto.
        -- intros [Hs|(tg' & [->|Hin] & Hp & Hi)]; [now left| |].
           ++ unfold is_page in Hp. rewrite Hp in Hty. discriminate.
           ++ right. exists tg'. split; auto.
Qed.

Lemma connect_pages_fresh connectTab targets : forall o h o' h',
  fresh_registry o h ->
  connect_pages connectTab targets o h = Some (o', h') ->
  fresh_registry o' h'.
Proof.
  induction targets as [|tg rest IH]; simpl; intros o h o' h' Hreg H.
  - now simplify_eq.
  - destruct (String.eqb (type tg) "page"); [|eauto].
    destruct (connectTab (id tg)) as [pr|]; [|discriminate].
    eapply IH; [|exact H]. intros i l Hget.
    destruct (String.eqb_spec (id tg) i) as [E|Hne].
    + rewrite <- E, get_set_eq in Hget. injection Hget as <-.
      exists {| free := true;
                client := {| tabId := id tg; protocol := pr |} |}.
      split; [|split; [reflexivity|exact E]].
      rewrite lookup_app_r by lia. now rewrite Nat.sub_diag.
    + rewrite get_set_ne in Hget by assumption.
      destruct (Hreg i l Hget) as (tab & Hl & Hf & Hi).
      exists tab. split; [|split; assumption].
      rewrite lookup_app_l; [assumption|].
      eapply lookup_lt_Some; eassumption.
Qed.

Lemma new_initial m prt launcher targets connectTab s0 :
  new m prt launcher targets connectTab = Some s0 ->
  requireResolveTasks (pool s0) = Some [] /\ tasks s0 = [].
Proof.
  unfold new. destruct (connect_pages _ _ _ _) as [[o h]|]; intros H;
    simplify_eq. auto.
Qed.

(** C8. For every list of targets enumerated at construction (all of whose
    page targets can be connected), [new] produces a pool whose registry
    holds exactly the ids of the targets of type "page", each as a free
    entry connected to that tab, and whose wait queue is empty. *)
Theorem new_registers_exactly_pages m prt launcher targets connectTab :
  (forall tg, In tg targets -> is_page tg -> connectTab (id tg) <> None) ->
  exists s, new m prt launcher targets connectTab = Some s /\
    (forall i, is_Some (entry s i) <->
               exists tg, In tg targets /\ is_page tg /\ id tg = i) /\
    (forall i tab, entry s i = Some tab ->
               free tab = true /\ tabId (client tab) = i) /\
    requireResolveTasks (pool s) = Some [] /\
    maxTab (pool s) = m /\ tasks s = [].
Proof.
  intros Hconn.
  destruct (connect_pages_spec connectTab targets [] []) as
    (o & h & Hrun & Hreg & Hkeys); [intros i l; discriminate|assumption|].
  unfold new. rewrite Hrun. eexists. split; [reflexivity|].
  unfold entry; simpl. repeat split; auto.
  - intros [tab Ht].
    destruct (proj1 (Hkeys i)) as [[x Hx]|H]; [|discriminate|assumption].
    destruct (JsObject.get i o); [eexists; reflexivity|discriminate].
  - intros H. destruct (proj2 (Hkeys i) (or_intror H)) as [l Hl].
    rewrite Hl. destruct (Hreg i l Hl) as (tab & Htab & _). now exists tab.
  - destruct (JsObject.get i o) as [l|] eqn:Hl; [|discriminate].
    destruct (Hreg i l Hl) as (tab' & Htab & Hf & _). congruence.
  - destruct (JsObject.get i o) as [l|] eqn:Hl; [|discriminate].
    destruct (Hreg i l Hl) as (tab' & Htab & _ & Hi). congruence.
Qed.

Lemma new_registers_exactly_pages_witness :
  let targets := [ {| id := "T0"; type := "page" |};
                   {| id := "BG"; type := "background_page" |} ] in
  let connectTab := fun _ : TabId => Some 0 in
  (forall tg, In tg targets -> is_page tg -> connectTab (id tg) <> None) /\
  exists s, new (Finite 1) 9222%N 1 targets connectTab = Some s /\
    (forall i, is_Some (entry s i) <->
               exists tg, In tg targets /\ is_page tg /\ id tg = i) /\
    (forall i tab, entry s i = Some tab ->
               free tab = true /\ tabId (client tab) = i) /\
    requireResolveTasks (pool s) = Some [] /\
    maxTab (pool s) = Finite 1 /\ tasks s = [].
Proof.
  intros targets connectTab.
  assert (H : forall tg, In tg targets -> is_page tg ->
                         connectTab (id tg) <> None) by (intros; discriminate).
  split; [exact H|].
  exact (new_registers_exactly_pages (Finite 1) 9222%N 1 targets connectTab H).
Defined.

Lemma launched_one_tab m : launched m = Some (one_tab m).
Proof. reflexivity. Qed.

(** ** createTab at and below the limit *)

(** C7. In a pool whose registry holds at least [maxTab] entries,
    [createTab] returns [undefined] without an error and leaves the registry
    and the entries as they are.  Below [maxTab], once the browser has
    answered [chrome.New] with an id and connected it, [createTab] has stored
    a free entry for that id, connected to it, and returns the id; when the
    id is new the registry has one more entry. *)
Theorem createTab_respects_limit s o :
  tabs (pool s) = Some o ->
  let t := length (tasks s) in
  (below (length (JsObject.keys o)) (maxTab (pool s)) = false ->
     exists s', exec CallCreateTab s = Some (s', []) /\
       status s' t = Some (Fulfilled VUndefined) /\
       pool s' = pool s /\ heap s' = heap s) /\
  (below (length (JsObject.keys o)) (maxTab (pool s)) = true ->
     forall i pr, exists s',
       run [CallCreateTab; NewReply t (Some i); ConnectReply t (Some pr)] s
         = Some (s', []) /\
       status s' t = Some (Fulfilled (VTabId i)) /\
       entry s' i =
         Some {| free := true; client := {| tabId := i; protocol := pr |} |} /\
       (JsObject.get i o = None ->
          tabCount s' = Some (S (length (JsObject.keys o))))).
Proof.
  intros Ho t. split; intros Hb.
  - eexists. split; [reflexivity|].
    unfold createTab_begin, status, spawn. rewrite Ho, Hb. simpl.
    rewrite lookup_app_r by lia. rewrite Nat.sub_diag. auto.
  - intros i pr.
    assert (Hlook : forall st (l : list Status), (l ++ [st]) !! length l = Some st).
    { intros st l. rewrite lookup_app_r by lia. now rewrite Nat.sub_diag. }
    assert (Hins : forall st st' (l : list Status),
               <[length l := st']> (l ++ [st]) = l ++ [st']).
    { intros st st' l. rewrite insert_app_r_alt by lia.
      now rewrite Nat.sub_diag. }
    simpl. unfold createTab_begin, status. rewrite Ho, Hb. simpl.
    fold t. unfold t at 1. rewrite Hlook. simpl.
    unfold t. rewrite Hins, Hlook. simpl.
    eexists. split; [reflexivity|]. simpl. rewrite !Hins, Hlook.
    split; [reflexivity|]. unfold entry, tabCount. simpl. rewrite Ho. simpl.
    rewrite get_set_eq, lookup_app_r by lia. rewrite Nat.sub_diag.
    split; [reflexivity|]. intros Hnew.
    now rewrite !length_keys, length_set_new.
Qed.

Lemma createTab_respects_limit_witness :
  let full := one_tab (Finite 1) in
  let room := one_tab (Finite 2) in
  tabs (pool full) = Some [("T0", 0)] /\
  below 1 (Finite 1) = false /\ below 1 (Finite 2) = true /\
  (exists s', exec CallCreateTab full = Some (s', []) /\
     status s' 0 = Some (Fulfilled VUndefined) /\
     pool s' = pool full /\ heap s' = heap full) /\
  (exists s',
     run [CallCreateTab; NewReply 0 (Some "T1"); ConnectReply 0 (Some 7)] room
       = Some (s', []) /\
     status s' 0 = Some (Fulfilled (VTabId "T1")) /\
     entry s' "T1" =
       Some {| free := true; client := {| tabId := "T1"; protocol := 7 |} |} /\
     (JsObject.get "T1" [("T0", 0)] = None -> tabCount s' = Some 2)).
Proof.
  intros full room. do 3 (split; [reflexivity|]). split.
  - exact (proj1 (createTab_respects_limit full [("T0", 0)] eq_refl) eq_refl).
  - exact (proj2 (createTab_respects_limit room [("T0", 0)] eq_refl) eq_refl
             "T1" 7).
Defined.

(** ** What one segment can change *)

Ltac break_exec H :=
  unfold exec, require_begin, require_take, require_park, release_begin,
    release_finish, createTab_register, createTab_begin, destroyPoll_finish,
    status in H;
  simpl in H; repeat (case_match; simplify_eq); simpl in *.

(** Reading the task table after a segment wrote the entry of another
    task or added a call. *)
Ltac other_task :=
  match goal with
  | Hw : ?ts !! ?w = Some ?a |- <[?t := _]> ?ts !! ?w = Some ?a =>
      rewrite list_lookup_insert_ne; [exact Hw | congruence]
  | Hw : ?ts !! ?w = Some ?a |- (?ts ++ _) !! ?w = Some ?a =>
      rewrite lookup_app_l; [exact Hw | eapply lookup_lt_Some; exact Hw]
  end.

(** A property that every segment preserves holds at the end of a run. *)
Lemma run_invariant (P : State -> Prop) :
  (forall e s s' o, P s -> exec e s = Some (s', o) -> P s') ->
  forall es s s' log, P s -> run es s = Some (s', log) -> P s'.
Proof.
  intros Hstep. induction es as [|e r IH]; simpl; intros s s' log Hs H.
  - now simplify_eq.
  - destruct (exec e s) as [[s1 o1]|] eqn:He; [|discriminate].
    destruct (run r s1) as [[s2 o2]|] eqn:Hr; [|discriminate].
    simplify_eq. eapply IH; [eapply Hstep|]; eassumption.
Qed.

Lemma lookup_settle (ts : list Status) t st w x :
  <[t := st]> ts !! w = Some x -> (w = t /\ x = st) \/ ts !! w = Some x.
Proof.
  destruct (decide (t = w)) as [->|Hne].
  - intros H. left. split; [reflexivity|].
    destruct (decide (w < length ts)).
    + rewrite list_lookup_insert_eq in H by assumption. congruence.
    + rewrite list_insert_ge in H by lia.
      apply lookup_lt_Some in H. lia.
  - rewrite list_lookup_insert_ne by assumption. auto.
Qed.

Lemma lookup_spawn (ts : list Status) st w x :
  (ts ++ [st]) !! w = Some x -> x = st \/ ts !! w = Some x.
Proof.
  intros H. apply lookup_app_Some in H as [H|[_ H]]; [now right|].
  left. destruct (w - length ts); simpl in H; [congruence|].
  rewrite lookup_nil in H. discriminate.
Qed.

Lemma lookup_resolve (ts : list Status) w i t j l :
  resolve w i ts !! t = Some (AwaitNavigate j l) ->
  ts !! t = Some (AwaitNavigate j l).
Proof.
  unfold resolve. destruct (ts !! w) as [[]|] eqn:E; auto.
  destruct r; auto. intros H. apply lookup_settle in H as [[_ H]|H]; auto.
  discriminate.
Qed.

(** *** Locations stay allocated *)

Lemma get_set_bound (o : JsObject.t nat) i j l n :
  (forall k m, JsObject.get k o = Some m -> m < n) ->
  JsObject.get j (JsObject.set i n o) = Some l -> l < S n.
Proof.
  intros Ho H. destruct (String.eqb_spec i j) as [->|Hne].
  - rewrite get_set_eq in H. injection H as <-. lia.
  - rewrite get_set_ne in H by assumption. apply Ho in H. lia.
Qed.

Lemma exec_heap_wf e s s' o :
  heap_wf s -> exec e s = Some (s', o) -> heap_wf s'.
Proof.
  intros [Hp Ht] H. unfold heap_wf, status in *.
  destruct e; break_exec H;
    try match goal with who : Caller |- _ => destruct who end;
    (split;
     [ intros o' j l' Ho' Hj; simpl in *; simplify_eq;
       rewrite ?length_insert, ?length_app; simpl;
       try (destruct (tabs (pool s)) eqn:Etabs; simpl in *; simplify_eq;
            rewrite Nat.add_1_r; eapply get_set_bound; [|eassumption];
            intros; eapply Hp; [reflexivity|eassumption]);
       eauto
     | intros t' j l' Hs'; simpl in *;
       rewrite ?length_insert, ?length_app; simpl;
       repeat match goal with
              | H : <[_ := _]> _ !! _ = Some _ |- _ =>
                  apply lookup_settle in H as [[_ H]|H]; simplify_eq
              | H : (_ ++ [_]) !! _ = Some _ |- _ =>
                  apply lookup_spawn in H as [H|H]; simplify_eq
              | H : resolve _ _ _ !! _ = Some _ |- _ =>
                  apply lookup_resolve in H
              end;
       try (apply Nat.lt_lt_add_r); eauto ]).
Qed.

Lemma run_heap_wf es s s' log :
  heap_wf s -> run es s = Some (s', log) -> heap_wf s'.
Proof. apply (run_invariant heap_wf), exec_heap_wf. Qed.

Lemma new_heap_wf m prt launcher targets connectTab s0 :
  new m prt launcher targets connectTab = Some s0 -> heap_wf s0.
Proof.
  unfold new. intros H.
  destruct (connect_pages connectTab targets [] []) as [[o h]|] eqn:Hc;
    [|discriminate].
  simplify_eq.
  assert (Hreg : fresh_registry o h).
  { eapply connect_pages_fresh; [|exact Hc]. intros i l; discriminate. }
  split; simpl.
  - intros o' i l [= <-] Hl.
    destruct (Hreg i l Hl) as (tab & Ht & _).
    eapply lookup_lt_Some; eassumption.
  - intros t i l. unfold status. simpl. rewrite lookup_nil. discriminate.
Qed.

(** In every state a pool built by [new] can reach, each registered id has
    its entry: the lookups of lines 136, 146 and 156 find an object
    whenever the id is a key of [this.tabs]. *)
Lemma registered_ids_have_entries
  m prt launcher targets connectTab s0 es s log o i :
  new m prt launcher targets connectTab = Some s0 ->
  run es s0 = Some (s, log) ->
  tabs (pool s) = Some o ->
  is_Some (JsObject.get i o) -> is_Some (entry s i).
Proof.
  intros Hnew Hrun Ho [l Hl].
  assert (Hwf : heap_wf s).
  { eapply run_heap_wf; [|exact Hrun]. eapply new_heap_wf; eassumption. }
  unfold entry. rewrite Ho, Hl. apply lookup_lt_is_Some.
  eapply (proj1 Hwf); eassumption.
Qed.

(** ** The wait queue *)

Lemma enqueued_app l1 l2 : enqueued (l1 ++ l2) = enqueued l1 ++ enqueued l2.
Proof.
  induction l1 as [|[] r IH]; simpl; auto. now rewrite IH.
Qed.

Lemma dequeued_app l1 l2 : dequeued (l1 ++ l2) = dequeued l1 ++ dequeued l2.
Proof.
  induction l1 as [|[] r IH]; simpl; auto. now rewrite IH.
Qed.

(** [pop] takes what [unshift] put in first. *)
Lemma pop_oldest (q : list nat) w :
  last q = Some w -> rev q = w :: rev (removelast q).
Proof.
  intros H. apply last_Some in H as [q' ->].
  now rewrite removelast_last, rev_unit.
Qed.

Lemma exec_queue_step e s s' o :
  exec e s = Some (s', o) -> queue_step s s' o.
Proof.
  intros H.
  destruct e; break_exec H;
    first [ now (apply QueueKept; auto)
          | now (eapply QueueUnshift; eauto)
          | now (eapply QueuePop; eauto) ].
Qed.

Lemma exec_fifo e s s' o log :
  fifo s log -> exec e s = Some (s', o) -> fifo s' (log ++ o).
Proof.
  intros (waiting & Hlog & Hq) H. unfold fifo.
  rewrite enqueued_app, dequeued_app.
  destruct (exec_queue_step _ _ _ _ H) as
    [He Hd [Hs|Hs] | t q Hs Hs' He Hd | w q Hs Hl Hs' He Hd];
    rewrite He, Hd, ?app_nil_r.
  - exists waiting. split; [assumption|]. intros q. rewrite Hs. apply Hq.
  - exists waiting. split; [assumption|]. intros q. rewrite Hs. discriminate.
  - exists (waiting ++ [t]). split.
    + now rewrite Hlog, app_assoc.
    + intros q'. rewrite Hs'. intros [= <-]. simpl. f_equal. now apply Hq.
  - exists (rev (removelast q)). split.
    + rewrite Hlog, (Hq q Hs), (pop_oldest q w Hl), <- app_assoc. reflexivity.
    + intros q'. rewrite Hs'. now intros [= <-].
Qed.

Lemma run_fifo es : forall s s' log pre,
  fifo s pre -> run es s = Some (s', log) -> fifo s' (pre ++ log).
Proof.
  induction es as [|e r IH]; simpl; intros s s' log pre Hf H.
  - simplify_eq. now rewrite app_nil_r.
  - destruct (exec e s) as [[s1 o1]|] eqn:He; [|discriminate].
    destruct (run r s1) as [[s2 o2]|] eqn:Hr; [|discriminate].
    simplify_eq. rewrite app_assoc.
    eapply IH; [eapply exec_fifo|]; eassumption.
Qed.

(** *** The queue holds exactly the parked calls *)

Section QueueSound.
Variables s s' : State.
Hypothesis Hs : queue_sound s.

Lemma sound_null :
  requireResolveTasks (pool s') = None -> queue_sound s'.
Proof. intros H q. rewrite H. discriminate. Qed.

Lemma sound_spawn st :
  st <> AwaitResolve None ->
  requireResolveTasks (pool s') = requireResolveTasks (pool s) ->
  tasks s' = tasks s ++ [st] ->
  queue_sound s'.
Proof.
  intros Hst Hq Ht q. rewrite Hq. intros Hq'.
  destruct (Hs q Hq') as [Hnd Hin]. split; [assumption|].
  intros w. rewrite Hin. unfold parked, status. rewrite Ht. split.
  - intros Hw. rewrite lookup_app_l; [assumption|].
    eapply lookup_lt_Some; eassumption.
  - intros Hw. apply lookup_app_Some in Hw as [Hw|[Hlen Hw]]; [assumption|].
    destruct (w - length (tasks s)) as [|k]; simpl in Hw; [congruence|].
    rewrite lookup_nil in Hw. discriminate.
Qed.

Lemma sound_settle t st0 st :
  tasks s !! t = Some st0 -> st0 <> AwaitResolve None ->
  st <> AwaitResolve None ->
  requireResolveTasks (pool s') = requireResolveTasks (pool s) ->
  tasks s' = <[t := st]> (tasks s) ->
  queue_sound s'.
Proof.
  intros Ht0 Hst0 Hst Hq Ht q. rewrite Hq. intros Hq'.
  destruct (Hs q Hq') as [Hnd Hin]. split; [assumption|].
  intros w. rewrite Hin. unfold parked, status. rewrite Ht.
  destruct (decide (t = w)) as [->|Hne].
  - rewrite list_lookup_insert_eq by (eapply lookup_lt_Some; eassumption).
    split; congruence.
  - now rewrite list_lookup_insert_ne.
Qed.

Lemma sound_park t st0 q :
  tasks s !! t = Some st0 -> st0 <> AwaitResolve None ->
  requireResolveTasks (pool s) = Some q ->
  requireResolveTasks (pool s') = Some (t :: q) ->
  tasks s' = <[t := AwaitResolve None]> (tasks s) ->
  queue_sound s'.
Proof.
  intros Ht0 Hst0 Hq Hq' Ht q'. rewrite Hq'. intros [= <-].
  destruct (Hs q Hq) as [Hnd Hin].
  assert (Hfresh : ~ In t q).
  { intros H. apply Hin in H. unfold parked, status in H. congruence. }
  split; [constructor; [now rewrite list_elem_of_In|assumption]|].
  intros w. unfold parked, status. rewrite Ht. simpl.
  destruct (decide (t = w)) as [->|Hne].
  - rewrite list_lookup_insert_eq by (eapply lookup_lt_Some; eassumption).
    tauto.
  - rewrite list_lookup_insert_ne by assumption. rewrite Hin.
    unfold parked, status. tauto.
Qed.

Lemma sound_pop t st0 st q w i :
  tasks s !! t = Some st0 -> st0 <> AwaitResolve None ->
  st <> AwaitResolve None ->
  requireResolveTasks (pool s) = Some q -> last q = Some w ->
  requireResolveTasks (pool s') = Some (removelast q) ->
  tasks s' = <[t := st]> (resolve w i (tasks s)) ->
  queue_sound s' /\ parked s w /\
  status s' w = Some (AwaitResolve (Some i)).
Proof.
  intros Ht0 Hst0 Hst Hq Hl Hq' Ht.
  destruct (Hs q Hq) as [Hnd Hin].
  apply last_Some in Hl as [q0 ->]. rewrite removelast_last in Hq'.
  assert (Hw : parked s w) by (apply Hin, in_or_app; right; now left).
  assert (Hres : resolve w i (tasks s) = <[w := AwaitResolve (Some i)]> (tasks s)).
  { unfold resolve. unfold parked, status in Hw. now rewrite Hw. }
  assert (Htw : t <> w) by (unfold parked, status in Hw; congruence).
  apply NoDup_app in Hnd as (Hnd0 & Hdisj & _).
  split; [|split; [assumption|]].
  - intros q'. rewrite Hq'. intros [= <-]. split; [assumption|].
    intros x. unfold parked, status. rewrite Ht, Hres.
    destruct (decide (t = x)) as [->|Hne].
    + rewrite list_lookup_insert_eq
        by (rewrite length_insert; eapply lookup_lt_Some; eassumption).
      split; [|congruence]. intros Hx.
      assert (P : parked s x) by (apply Hin, in_or_app; now left).
      unfold parked, status in P. congruence.
    + rewrite list_lookup_insert_ne by assumption.
      destruct (decide (w = x)) as [->|Hne'].
      * rewrite list_lookup_insert_eq by (eapply lookup_lt_Some; exact Hw).
        split; [|discriminate]. intros Hx. exfalso.
        apply (Hdisj x); [now apply list_elem_of_In|]. left.
      * rewrite list_lookup_insert_ne by assumption.
        rewrite <- (Hin x), in_app_iff. simpl.
        unfold parked, status. split; [tauto|].
        intros [H|[H|[]]]; [assumption|contradiction].
  - unfold status. rewrite Ht, Hres.
    rewrite list_lookup_insert_ne by assumption.
    apply list_lookup_insert_eq. eapply lookup_lt_Some; exact Hw.
Qed.

End QueueSound.

Lemma exec_queue_sound e s s' o :
  queue_sound s -> exec e s = Some (s', o) -> queue_sound s'.
Proof.
  intros Hs H.
  destruct e; break_exec H;
    try match goal with who : Caller |- _ => destruct who end;
    first
      [ now (eapply sound_null; eauto)
      | now (eapply sound_spawn; eauto; discriminate)
      | now (eapply sound_settle; eauto; discriminate)
      | now (eapply sound_park; eauto; discriminate)
      | now (eapply sound_pop; eauto; discriminate) ].
Qed.

Lemma run_queue_sound es s s' log :
  queue_sound s -> run es s = Some (s', log) -> queue_sound s'.
Proof. apply (run_invariant queue_sound), exec_queue_sound. Qed.

(** The call a segment takes off the queue was parked and is resolved. *)
Lemma exec_dequeued e s s' o w i :
  queue_sound s -> exec e s = Some (s', o) -> In (Dequeued w i) o ->
  parked s w /\ status s' w = Some (AwaitResolve (Some i)).
Proof.
  intros Hs H Hin.
  destruct e; break_exec H; try tauto;
    repeat match goal with
           | Hin : _ \/ _ |- _ => destruct Hin as [Hin|Hin]; simplify_eq
           end; try tauto.
  all: eapply (sound_pop s _ Hs); eauto; discriminate.
Qed.

Lemma in_dequeued o w i : In (Dequeued w i) o -> In w (dequeued o).
Proof.
  induction o as [|x r IH]; simpl; [tauto|].
  intros [->|H]; [now left|].
  destruct x; simpl; auto.
Qed.

Lemma new_queue_sound m prt launcher targets connectTab s0 es s log :
  new m prt launcher targets connectTab = Some s0 ->
  run es s0 = Some (s, log) ->
  queue_sound s.
Proof.
  intros Hnew Hrun.
  destruct (new_initial _ _ _ _ _ _ Hnew) as [Hq0 Ht0].
  eapply run_queue_sound; [|exact Hrun]. intros q. rewrite Hq0.
  intros [= <-]. split; [constructor|]. intros w.
  unfold parked, status. rewrite Ht0, lookup_nil. simpl.
  split; [tauto|discriminate].
Qed.

(** The second segment of [release], with a call waiting: the last element
    of the array is popped and that call's promise is resolved with the
    id. *)
Lemma release_resolves_oldest s t i l q w :
  queue_sound s ->
  status s t = Some (AwaitNavigate i l) ->
  requireResolveTasks (pool s) = Some q -> last q = Some w ->
  exists s',
    exec (NavigateReply t true) s = Some (s', [MarkedFree i; Dequeued w i]) /\
    status s' t = Some (Fulfilled VUndefined) /\
    status s' w = Some (AwaitResolve (Some i)) /\
    requireResolveTasks (pool s') = Some (removelast q) /\
    tabs (pool s') = tabs (pool s) /\
    (forall x, x <> t -> x <> w -> status s' x = status s x) /\
    (forall tab, heap s !! l = Some tab ->
       heap s' = <[l := set_free true tab]> (heap s)).
Proof.
  intros Hs Ht Hq Hlast.
  assert (Hw : status s w = Some (AwaitResolve None)).
  { destruct (Hs q Hq) as [_ Hin]. apply Hin.
    apply last_Some in Hlast as [q' ->]. apply in_or_app. right. now left. }
  unfold status in *.
  assert (Hne : t <> w) by congruence.
  assert (Hres : resolve w i (tasks s) = <[w := AwaitResolve (Some i)]> (tasks s)).
  { unfold resolve. now rewrite Hw. }
  simpl. unfold status. rewrite Ht. unfold release_finish.
  rewrite Hq, Hlast, Hres. eexists. split; [reflexivity|]. simpl.
  split; [|split; [|split; [|split; [|split]]]]; try reflexivity.
  - apply list_lookup_insert_eq. rewrite length_insert.
    eapply lookup_lt_Some; eassumption.
  - rewrite list_lookup_insert_ne by assumption.
    apply list_lookup_insert_eq. eapply lookup_lt_Some; eassumption.
  - intros x Hxt Hxw. now rewrite !list_lookup_insert_ne by congruence.
  - intros tab Htab. now rewrite Htab.
Qed.

(** C3. In every run of a pool built by [new], the calls are taken off the
    wait queue in exactly the order in which they were parked: the calls
    resolved so far are the first of the calls parked so far, in the same
    order (the k-th call resolved is the k-th call parked); the array holds
    exactly the calls still parked, the longest waiting at its last index;
    a segment that resolves a call resolves the one that was parked first
    among those still waiting; and every [release] that reaches line 160
    with a call waiting does resolve one: it takes the longest-waiting call
    off the array and resolves it with the released id, leaving the others
    parked, and when that call's continuation runs next it returns the
    client of the released tab. *)
Theorem wait_queue_is_fifo m prt launcher targets connectTab s0 es s log :
  new m prt launcher targets connectTab = Some s0 ->
  run es s0 = Some (s, log) ->
  (exists waiting,
     enqueued log = dequeued log ++ waiting /\
     forall q, requireResolveTasks (pool s) = Some q ->
       waiting = rev q /\ NoDup q /\ forall w, In w q <-> parked s w) /\
  (forall k w, dequeued log !! k = Some w -> enqueued log !! k = Some w) /\
  (forall e s' o w i,
     exec e s = Some (s', o) -> In (Dequeued w i) o ->
     parked s w /\ status s' w = Some (AwaitResolve (Some i)) /\
     dequeued o = [w] /\
     exists rest, enqueued log = dequeued log ++ w :: rest) /\
  (forall t i l q w,
     status s t = Some (AwaitNavigate i l) ->
     requireResolveTasks (pool s) = Some q -> last q = Some w ->
     exists s' rest,
       exec (NavigateReply t true) s
         = Some (s', [MarkedFree i; Dequeued w i]) /\
       status s' t = Some (Fulfilled VUndefined) /\
       parked s w /\ status s' w = Some (AwaitResolve (Some i)) /\
       requireResolveTasks (pool s') = Some (removelast q) /\
       (forall x, In x (removelast q) -> parked s' x) /\
       enqueued log = dequeued log ++ w :: rest /\
       rest = rev (removelast q)) /\
  (forall i tab q w,
     entry s i = Some tab ->
     requireResolveTasks (pool s) = Some q -> last q = Some w ->
     exists s',
       run [CallRelease i; NavigateReply (length (tasks s)) true; Continue w] s
         = Some (s', [ReleaseCalled i; MarkedFree i; Dequeued w i;
                      Granted w (client tab)]) /\
       status s' w = Some (Fulfilled (VClient (client tab))) /\
       entry s' i = Some {| free := false; client := client tab |} /\
       requireResolveTasks (pool s') = Some (removelast q)).
Proof.
  intros Hnew Hrun.
  destruct (new_initial _ _ _ _ _ _ Hnew) as [Hq0 Ht0].
  assert (Hf : fifo s log).
  { change log with ([] ++ log). eapply run_fifo; [|exact Hrun].
    exists []. split; [reflexivity|]. rewrite Hq0. now intros q [= <-]. }
  pose proof (new_queue_sound _ _ _ _ _ _ _ _ _ Hnew Hrun) as Hs.
  destruct Hf as (waiting & Hlog & Hq). split; [|split; [|split; [|split]]].
  - exists waiting. split; [assumption|]. intros q Hsq.
    split; [now apply Hq|]. now apply Hs.
  - intros k w Hk. rewrite Hlog. rewrite lookup_app_l; [assumption|].
    eapply lookup_lt_Some; eassumption.
  - intros e s' o w i He Hin.
    destruct (exec_dequeued _ _ _ _ _ _ Hs He Hin) as [Hp Hr].
    split; [assumption|]. split; [assumption|].
    destruct (exec_queue_step _ _ _ _ He) as
      [_ Hd _ | t q _ _ _ Hd | w' q Hsq Hl _ _ Hd].
    1,2: apply in_dequeued in Hin; rewrite Hd in Hin; destruct Hin.
    assert (w' = w) as ->.
    { apply in_dequeued in Hin. rewrite Hd in Hin.
      destruct Hin as [E|[]]. exact E. }
    split; [assumption|]. exists (rev (removelast q)).
    now rewrite Hlog, (Hq q Hsq), (pop_oldest q w Hl).
  - intros t i l q w Ht Hsq Hl.
    destruct (release_resolves_oldest s t i l q w Hs Ht Hsq Hl)
      as (s' & He & Hst & Hsw & Hq' & _).
    exists s', (rev (removelast q)).
    pose proof (exec_queue_sound _ _ _ _ Hs He) as Hs'.
    split; [assumption|]. split; [assumption|].
    split; [|split; [assumption|split; [assumption|split; [|split]]]].
    + apply (Hs q Hsq). apply last_Some in Hl as [q' ->].
      apply in_or_app. right. now left.
    + intros x Hx. now apply (Hs' _ Hq').
    + now rewrite Hlog, (Hq q Hsq), (pop_oldest q w Hl).
    + reflexivity.
  - intros i tab q w He Hsq Hl. unfold entry in He.
    destruct (tabs (pool s)) as [o|] eqn:Ho; [|discriminate].
    destruct (JsObject.get i o) as [l|] eqn:Hil; [|discriminate].
    set (s1 := spawn (AwaitNavigate i l) s).
    assert (H1 : exec (CallRelease i) s = Some (s1, [ReleaseCalled i])).
    { simpl. unfold release_begin. now rewrite Ho, Hil. }
    assert (Ht1 : status s1 (length (tasks s)) = Some (AwaitNavigate i l)).
    { unfold status, s1. simpl. rewrite lookup_app_r by lia.
      now rewrite Nat.sub_diag. }
    destruct (release_resolves_oldest s1 _ i l q w
                (exec_queue_sound _ _ _ _ Hs H1) Ht1 Hsq Hl)
      as (s2 & H2 & _ & Hsw & Hq2 & Htabs & _ & Hheap).
    specialize (Hheap tab He).
    assert (Hlt : l < length (heap s)) by (eapply lookup_lt_Some; eassumption).
    assert (Hl2 : heap s2 !! l = Some (set_free true tab)).
    { rewrite Hheap. simpl. now apply list_lookup_insert_eq. }
    assert (Hw : w < length (tasks s2)) by (eapply lookup_lt_Some; exact Hsw).
    unfold run. rewrite H1, H2. simpl. rewrite Hsw.
    unfold require_take. rewrite Htabs. simpl. rewrite Ho, Hil, Hl2.
    eexists. split; [reflexivity|].
    unfold status, entry. simpl. rewrite Htabs. simpl. rewrite Ho, Hil.
    split; [now apply list_lookup_insert_eq|]. split; [|assumption].
    apply list_lookup_insert_eq. rewrite Hheap, length_insert. exact Hlt.
Qed.

Lemma wait_queue_is_fifo_witness :
  let s0 := one_tab (Finite 2) in
  let s := state_after two_waiters_one_served s0 in
  let client1 := {| tabId := "T1"; protocol := 1 |} in
  let log := [Granted 0 client0; Granted 1 client1; Enqueued 2; Enqueued 3;
              ReleaseCalled "T0"; MarkedFree "T0"; Dequeued 2 "T0";
              Granted 2 client0; ReleaseCalled "T1"] in
  launched (Finite 2) = Some s0 /\
  run two_waiters_one_served s0 = Some (s, log) /\
  enqueued log = [2; 3] /\ dequeued log = [2] /\
  requireResolveTasks (pool s) = Some [3] /\
  status s 5 = Some (AwaitNavigate "T1" 1) /\
  entry s "T0" = Some {| free := false; client := client0 |} /\
  (forall k w, dequeued log !! k = Some w -> enqueued log !! k = Some w) /\
  (exists s' rest,
     exec (NavigateReply 5 true) s
       = Some (s', [MarkedFree "T1"; Dequeued 3 "T1"]) /\
     status s' 5 = Some (Fulfilled VUndefined) /\
     parked s 3 /\ status s' 3 = Some (AwaitResolve (Some "T1")) /\
     requireResolveTasks (pool s') = Some (removelast [3]) /\
     (forall x, In x (removelast [3]) -> parked s' x) /\
     enqueued log = dequeued log ++ 3 :: rest /\
     rest = rev (removelast [3])) /\
  (exists s',
     run [CallRelease "T0"; NavigateReply 6 true; Continue 3] s
       = Some (s', [ReleaseCalled "T0"; MarkedFree "T0"; Dequeued 3 "T0";
                    Granted 3 client0]) /\
     status s' 3 = Some (Fulfilled (VClient client0)) /\
     entry s' "T0" = Some {| free := false; client := client0 |} /\
     requireResolveTasks (pool s') = Some (removelast [3])).
Proof.
  intros s0 s client1 log. do 7 (split; [reflexivity|]).
  destruct (wait_queue_is_fifo (Finite 2) 9222%N 1
              [ {| id := "T0"; type := "page" |};
                {| id := "BG"; type := "background_page" |} ]
              (fun _ => Some 0) s0 two_waiters_one_served s log
              eq_refl eq_refl) as (_ & Hk & _ & Hpop & Hrun).
  split; [exact Hk|]. split.
  - exact (Hpop 5 "T1" 1 [3] 3 eq_refl eq_refl eq_refl).
  - exact (Hrun "T0" {| free := false; client := client0 |} [3] 3
             eq_refl eq_refl eq_refl).
Defined.

(** ** After destroyPoll *)

Lemma exec_destroyed e s s' o :
  destroyed (pool s) -> exec e s = Some (s', o) -> destroyed (pool s').
Proof.
  intros (Hp & Hl & Ht & Hq) H. unfold destroyed.
  destruct e; break_exec H; rewrite ?Ht; repeat split; congruence.
Qed.

Lemma run_destroyed es s s' log :
  destroyed (pool s) -> run es s = Some (s', log) -> destroyed (pool s').
Proof.
  apply (run_invariant (fun s => destroyed (pool s))), exec_destroyed.
Qed.

(** On a destroyed pool no segment of [require] returns a client. *)
Lemma exec_destroyed_no_grant e s s' o t c :
  destroyed (pool s) -> exec e s = Some (s', o) -> ~ In (Granted t c) o.
Proof.
  intros (Hp & Hl & Ht & Hq) H.
  destruct e; break_exec H; simpl; try tauto; try congruence.
  intros [E|[]]. discriminate.
Qed.

Lemma run_destroyed_no_grant es : forall s s' log t c,
  destroyed (pool s) -> run es s = Some (s', log) -> ~ In (Granted t c) log.
Proof.
  induction es as [|e r IH]; simpl; intros s s' log t c Hd H.
  - simplify_eq. simpl. tauto.
  - destruct (exec e s) as [[s1 o1]|] eqn:He; [|discriminate].
    destruct (run r s1) as [[s2 o2]|] eqn:Hr; [|discriminate].
    simplify_eq. rewrite in_app_iff. intros [Hin|Hin].
    + eapply exec_destroyed_no_grant; eassumption.
    + eapply IH; [eapply exec_destroyed| |]; eassumption.
Qed.

Lemma kill_destroys d s s' o :
  exec (KillReply d true) s = Some (s', o) -> destroyed (pool s').
Proof.
  intros H. break_exec H. unfold destroyed. auto.
Qed.

Lemma exec_destroyed_queue e s s' o :
  requireResolveTasks (pool s) = None ->
  exec e s = Some (s', o) ->
  requireResolveTasks (pool s') = None.
Proof.
  intros Hq H. destruct e; break_exec H; congruence.
Qed.

(** Without a queue nothing calls the [resolve] of a parked call. *)
Lemma exec_parked_stays e s s' o w :
  requireResolveTasks (pool s) = None ->
  exec e s = Some (s', o) ->
  parked s w -> parked s' w.
Proof.
  unfold parked, status. intros Hq H Hw.
  destruct e; break_exec H; try other_task; congruence.
Qed.

Lemma run_parked_stays es s s' log w :
  requireResolveTasks (pool s) = None ->
  run es s = Some (s', log) ->
  parked s w -> parked s' w.
Proof.
  intros Hq H Hw.
  apply (run_invariant
           (fun s => requireResolveTasks (pool s) = None /\ parked s w))
    with (es := es) (s := s) (log := log); auto.
  intros e s1 s2 o [Hq1 Hw1] He. split.
  - eapply exec_destroyed_queue; eassumption.
  - eapply exec_parked_stays; eassumption.
Qed.

(** C10. Once [destroyPoll] has completed, whatever ran since, the four
    fields are null and stay null, no [require] has returned a client since,
    and every new call of [require], [createTab], [release] or [destroyPoll]
    is rejected with a TypeError in its first segment and changes neither
    the pool nor the entries. *)
Theorem no_call_succeeds_after_destroyPoll d s s1 o1 es s2 log :
  exec (KillReply d true) s = Some (s1, o1) ->
  run es s1 = Some (s2, log) ->
  destroyed (pool s2) /\
  (forall t c, ~ In (Granted t c) log) /\
  forall e,
    e = CallRequire \/ e = CallCreateTab \/ (exists i, e = CallRelease i) \/
    e = CallDestroyPoll ->
    exists s3, exec e s2 = Some (s3, []) /\
      status s3 (length (tasks s2)) = Some (Rejected TypeError) /\
      pool s3 = pool s2 /\ heap s3 = heap s2.
Proof.
  intros Hk Hr.
  assert (Hd : destroyed (pool s2)).
  { eapply run_destroyed; [eapply kill_destroys|]; eassumption. }
  split; [exact Hd|]. split.
  { intros t c. eapply run_destroyed_no_grant; [eapply kill_destroys|];
      eassumption. }
  destruct Hd as (_ & Hl & Ht & _).
  intros e He. exists (spawn (Rejected TypeError) s2).
  assert (Hnew : status (spawn (Rejected TypeError) s2) (length (tasks s2))
                 = Some (Rejected TypeError)).
  { unfold status, spawn. simpl. rewrite lookup_app_r by lia.
    now rewrite Nat.sub_diag. }
  destruct He as [->|[->|[[i ->]| ->]]]; simpl;
    unfold require_begin, createTab_begin, release_begin;
    rewrite ?Ht, ?Hl; auto.
Qed.

Lemma no_call_succeeds_after_destroyPoll_witness :
  let s := state_after (saturate ++ [CallDestroyPoll]) (one_tab (Finite 1)) in
  let s1 := state_after teardown (one_tab (Finite 1)) in
  let s2 := state_after (teardown ++ [CallRequire]) (one_tab (Finite 1)) in
  exec (KillReply 2 true) s = Some (s1, []) /\
  run [CallRequire] s1 = Some (s2, []) /\
  destroyed (pool s2) /\
  (forall t c, ~ In (Granted t c) []) /\
  forall e,
    e = CallRequire \/ e = CallCreateTab \/ (exists i, e = CallRelease i) \/
    e = CallDestroyPoll ->
    exists s3, exec e s2 = Some (s3, []) /\
      status s3 (length (tasks s2)) = Some (Rejected TypeError) /\
      pool s3 = pool s2 /\ heap s3 = heap s2.
Proof.
  intros s s1 s2.
  split; [reflexivity|]. split; [reflexivity|].
  apply (no_call_succeeds_after_destroyPoll 2 s s1 [] [CallRequire] s2 []);
    reflexivity.
Defined.

(** C6, as the code has it. When [destroyPoll] completes in a pool built by
    [new], [tabs], [chromeLauncher], [port] and [requireResolveTasks] are
    null, and the calls that were in the wait queue are not settled: in
    every later state each of them is still suspended at its await. *)
Theorem destroyPoll_leaves_waiters_parked
  m prt launcher targets connectTab s0 es s log q d s1 o1 :
  new m prt launcher targets connectTab = Some s0 ->
  run es s0 = Some (s, log) ->
  requireResolveTasks (pool s) = Some q ->
  exec (KillReply d true) s = Some (s1, o1) ->
  destroyed (pool s1) /\
  forall w, In w q ->
    forall es' s2 log', run es' s1 = Some (s2, log') -> parked s2 w.
Proof.
  intros Hnew Hrun Hq Hk. pose proof (kill_destroys _ _ _ _ Hk) as Hd.
  split; [exact Hd|]. intros w Hw es' s2 log' Hr.
  eapply run_parked_stays; [apply Hd|exact Hr|].
  apply (new_queue_sound _ _ _ _ _ _ _ _ _ Hnew Hrun q Hq) in Hw.
  unfold parked, status in *. break_exec Hk. other_task.
Qed.

Lemma destroyPoll_leaves_waiters_parked_witness :
  let s0 := one_tab (Finite 1) in
  let s := state_after (saturate ++ [CallDestroyPoll]) s0 in
  let s1 := state_after teardown s0 in
  launched (Finite 1) = Some s0 /\
  run (saturate ++ [CallDestroyPoll]) s0
    = Some (s, [Granted 0 client0; Enqueued 1]) /\
  requireResolveTasks (pool s) = Some [1] /\
  exec (KillReply 2 true) s = Some (s1, []) /\
  destroyed (pool s1) /\
  forall w, In w [1] ->
    forall es' s2 log', run es' s1 = Some (s2, log') -> parked s2 w.
Proof.
  intros s0 s s1. do 4 (split; [reflexivity|]).
  apply (destroyPoll_leaves_waiters_parked (Finite 1) 9222%N 1
           [ {| id := "T0"; type := "page" |};
             {| id := "BG"; type := "background_page" |} ]
           (fun _ => Some 0) s0 (saturate ++ [CallDestroyPoll]) s
           [Granted 0 client0; Enqueued 1] [1] 2 s1 []); reflexivity.
Defined.

(** C6 fails as stated: with [maxTab = 1], call 1 is parked when call 2
    destroys the pool; after [destroyPoll] has completed call 1 is still
    suspended, it has received no failure, and no later segment gives it
    one. *)
Lemma waiter_hangs_after_destroyPoll :
  let s := state_after teardown (one_tab (Finite 1)) in
  run teardown (one_tab (Finite 1))
    = Some (s, [Granted 0 client0; Enqueued 1]) /\
  status s 2 = Some (Fulfilled VUndefined) /\
  requireResolveTasks (pool s) = None /\
  status s 1 = Some (AwaitResolve None) /\
  forall es s' log, run es s = Some (s', log) ->
    status s' 1 = Some (AwaitResolve None) /\
    forall e, status s' 1 <> Some (Rejected e).
Proof.
  intros s. split; [reflexivity|]. do 3 (split; [reflexivity|]).
  intros es s' log H.
  assert (P : parked s' 1).
  { eapply run_parked_stays; [|exact H|]; reflexivity. }
  unfold parked in P. split; [exact P|]. intros e E. congruence.
Qed.

(** ** release *)

(** C9, as the code has it. When the navigation to about:blank is rejected,
    [release] is rejected with that failure and stops there: line 159 does
    not run, so the pool, the entries (the released one keeps the state it
    had) and every other call are as before. *)
Theorem failed_reset_changes_nothing s t i l :
  status s t = Some (AwaitNavigate i l) ->
  exists s', exec (NavigateReply t false) s = Some (s', []) /\
    status s' t = Some (Rejected Rejection) /\
    pool s' = pool s /\ heap s' = heap s /\
    (forall j, entry s' j = entry s j) /\
    (forall w, w <> t -> status s' w = status s w).
Proof.
  intros Ht. exists (settle t (Rejected Rejection) s).
  simpl. rewrite Ht. split; [reflexivity|].
  unfold status in *. simpl. split.
  - apply list_lookup_insert_eq. eapply lookup_lt_Some; eassumption.
  - repeat split. intros w Hw. now apply list_lookup_insert_ne.
Qed.

Lemma failed_reset_changes_nothing_witness :
  let s := state_after (saturate ++ [CallRelease "T0"]) (one_tab (Finite 1)) in
  status s 2 = Some (AwaitNavigate "T0" 0) /\
  exists s', exec (NavigateReply 2 false) s = Some (s', []) /\
    status s' 2 = Some (Rejected Rejection) /\
    pool s' = pool s /\ heap s' = heap s /\
    (forall j, entry s' j = entry s j) /\
    (forall w, w <> 2 -> status s' w = status s w).
Proof.
  intros s. split; [reflexivity|].
  apply (failed_reset_changes_nothing s 2 "T0" 0). reflexivity.
Defined.

(** C9 fails as stated: with [maxTab = 1], "T0" held by call 0 and call 1
    parked, the [release("T0")] of call 2 whose navigation is rejected is
    rejected, and the entry is neither free nor handed to call 1: it stays
    busy, and call 1 stays parked in the queue. *)
Lemma failed_reset_loses_the_tab :
  let s := state_after failed_reset (one_tab (Finite 1)) in
  run failed_reset (one_tab (Finite 1))
    = Some (s, [Granted 0 client0; Enqueued 1; ReleaseCalled "T0"]) /\
  status s 2 = Some (Rejected Rejection) /\
  entry s "T0" = Some {| free := false; client := client0 |} /\
  requireResolveTasks (pool s) = Some [1] /\
  status s 1 = Some (AwaitResolve None).
Proof. intros s. repeat split; reflexivity. Qed.




(** ** The races *)

(** C4 is violated by the code.  With [maxTab = 1], "T0" held by call 0 and
    call 1 parked, the second segment of [release("T0")] marks the entry free
    (line 159) before it pops call 1 and resolves it.  Until the continuation
    of call 1 runs the entry is free, and a [require] called in between
    (call 3) finds it free and gets it. *)
Theorem released_tab_is_free_before_the_waiter_runs :
  let s0 := state_after saturate (one_tab (Finite 1)) in
  let s := state_after handoff (one_tab (Finite 1)) in
  requireResolveTasks (pool s0) = Some [1] /\
  entry s0 "T0" = Some {| free := false; client := client0 |} /\
  run [CallRelease "T0"; NavigateReply 2 true] s0
    = Some (s, [ReleaseCalled "T0"; MarkedFree "T0"; Dequeued 1 "T0"]) /\
  entry s "T0" = Some {| free := true; client := client0 |} /\
  status s 1 = Some (AwaitResolve (Some "T0")) /\
  exists s', exec CallRequire s = Some (s', [Granted 3 client0]) /\
    status s' 3 = Some (Fulfilled (VClient client0)).
Proof.
  intros s0 s. do 5 (split; [reflexivity|]).
  eexists. split; reflexivity.
Qed.

(** C1 is violated by the code.  In the run above, continued by the
    continuation of call 1, [require] returns the client of "T0" to call 3
    and then to call 1, and "T0" is not released in between: both calls hold
    the same tab. *)
Theorem one_tab_granted_to_two_calls :
  let s := state_after double_grant (one_tab (Finite 1)) in
  let log := [Granted 0 client0; Enqueued 1; ReleaseCalled "T0";
              MarkedFree "T0"; Dequeued 1 "T0";
              Granted 3 client0; Granted 1 client0] in
  run double_grant (one_tab (Finite 1)) = Some (s, log) /\
  status s 3 = Some (Fulfilled (VClient client0)) /\
  status s 1 = Some (Fulfilled (VClient client0)) /\
  holders "T0" [] log = [3; 1].
Proof. intros s log. repeat split; reflexivity. Qed.

(** C2 is violated by the code.  With [maxTab = 2] and "T0" registered and
    busy, two [require] calls both read a count of 1 at line 115 before
    either has registered its new tab; both create one, and the registry
    ends with three entries. *)
Theorem concurrent_createTab_exceeds_maxTab :
  let s := state_after over_limit (one_tab (Finite 2)) in
  run over_limit (one_tab (Finite 2)) = Some (s, [Granted 0 client0]) /\
  maxTab (pool s) = Finite 2 /\
  tabs (pool s) = Some [("T0", 0); ("T1", 1); ("T2", 2)] /\
  tabCount s = Some 3.
Proof. intros s. repeat split; reflexivity. Qed.

(** ** The entries and the registry, segment by segment *)

Lemma exec_store_step e s s' o :
  exec e s = Some (s', o) -> store_step s s' o.
Proof.
  intros H.
  destruct e; break_exec H;
    first [ now (apply StoreKept; auto)
          | now (eapply StoreBusy; simpl; eauto)
          | now (eapply StoreFree; simpl; eauto)
          | now (eapply StoreNew; simpl; eauto) ].
Qed.

Lemma exec_maxTab e s s' o :
  exec e s = Some (s', o) -> maxTab (pool s') = maxTab (pool s).
Proof.
  intros H. destruct e; break_exec H; reflexivity.
Qed.

Lemma exec_registry_wf e s s' o :
  heap_wf s -> registry_wf s -> exec e s = Some (s', o) -> registry_wf s'.
Proof.
  intros [Hwf _] Hr H o' Ho'.
  destruct (exec_store_step _ _ _ _ H) as
    [Hh [Ht|Ht] | l tab t Hl Hh Ht _ | l tab i Hl Hh Ht _ | i pr Hh Ht];
    rewrite Ht in Ho'; try discriminate.
  - rewrite Hh. now apply Hr.
  - destruct (Hr o' Ho') as [Hent Hinj]. split; [|assumption].
    intros j l' Hj. destruct (Hent j l' Hj) as (x & Hx & Hid).
    rewrite Hh. destruct (decide (l = l')) as [->|Hne].
    + rewrite list_lookup_insert_eq by (eapply lookup_lt_Some; eassumption).
      eexists. split; [reflexivity|]. simpl. congruence.
    + rewrite list_lookup_insert_ne by assumption. eauto.
  - destruct (Hr o' Ho') as [Hent Hinj]. split; [|assumption].
    intros j l' Hj. destruct (Hent j l' Hj) as (x & Hx & Hid).
    rewrite Hh. destruct (decide (l = l')) as [->|Hne].
    + rewrite list_lookup_insert_eq by (eapply lookup_lt_Some; eassumption).
      eexists. split; [reflexivity|]. simpl. congruence.
    + rewrite list_lookup_insert_ne by assumption. eauto.
  - destruct (tabs (pool s)) as [o0|] eqn:Ho0; [|discriminate].
    simpl in Ho'. injection Ho' as <-.
    destruct (Hr o0 Ho0) as [Hent Hinj].
    assert (Hfresh : forall j, JsObject.get j o0 <> Some (length (heap s))).
    { intros j Hj. pose proof (Hwf o0 j _ eq_refl Hj). lia. }
    split.
    + intros j l' Hj. rewrite Hh.
      destruct (String.eqb_spec i j) as [E|Hne].
      * rewrite <- E, get_set_eq in Hj. injection Hj as <-.
        exists {| free := true; client := {| tabId := i; protocol := pr |} |}.
        split; [|exact E].
        rewrite lookup_app_r by lia. now rewrite Nat.sub_diag.
      * rewrite get_set_ne in Hj by assumption.
        destruct (Hent j l' Hj) as (x & Hx & Hid). exists x.
        split; [|assumption]. rewrite lookup_app_l; [assumption|].
        eapply lookup_lt_Some; eassumption.
    + intros j k l' Hj Hk.
      destruct (String.eqb_spec i j) as [Ej|Nj];
        destruct (String.eqb_spec i k) as [Ek|Nk]; try congruence.
      * rewrite <- Ej, get_set_eq in Hj. injection Hj as <-.
        rewrite get_set_ne in Hk by assumption. now apply Hfresh in Hk.
      * rewrite <- Ek, get_set_eq in Hk. injection Hk as <-.
        rewrite get_set_ne in Hj by assumption. now apply Hfresh in Hj.
      * rewrite get_set_ne in Hj, Hk by assumption. eauto.
Qed.

Lemma connect_pages_inj connectTab targets : forall o h o' h',
  (forall i l, JsObject.get i o = Some l -> l < length h) ->
  (forall i j l, JsObject.get i o = Some l -> JsObject.get j o = Some l ->
     i = j) ->
  connect_pages connectTab targets o h = Some (o', h') ->
  forall i j l, JsObject.get i o' = Some l -> JsObject.get j o' = Some l ->
    i = j.
Proof.
  induction targets as [|tg rest IH]; simpl; intros o h o' h' Hb Hinj H.
  - now simplify_eq.
  - destruct (String.eqb (type tg) "page"); [|eauto].
    destruct (connectTab (id tg)) as [pr|]; [|discriminate].
    eapply IH; [| |exact H].
    + intros i l Hi. rewrite length_app. simpl.
      destruct (String.eqb_spec (id tg) i) as [E|Hne].
      * rewrite <- E, get_set_eq in Hi. injection Hi as <-. lia.
      * rewrite get_set_ne in Hi by assumption. apply Hb in Hi. lia.
    + intros i j l Hi Hj.
      destruct (String.eqb_spec (id tg) i) as [Ei|Ni];
        destruct (String.eqb_spec (id tg) j) as [Ej|Nj]; try congruence.
      * rewrite <- Ei, get_set_eq in Hi. injection Hi as <-.
        rewrite get_set_ne in Hj by assumption. apply Hb in Hj. lia.
      * rewrite <- Ej, get_set_eq in Hj. injection Hj as <-.
        rewrite get_set_ne in Hi by assumption. apply Hb in Hi. lia.
      * rewrite get_set_ne in Hi, Hj by assumption. eauto.
Qed.

Lemma new_registry_wf m prt launcher targets connectTab s0 :
  new m prt launcher targets connectTab = Some s0 -> registry_wf s0.
Proof.
  unfold new. intros H.
  destruct (connect_pages connectTab targets [] []) as [[o h]|] eqn:Hc;
    [|discriminate].
  simplify_eq. intros o' [= <-]. simpl. split.
  - intros i l Hi.
    assert (Hreg : fresh_registry o h).
    { eapply connect_pages_fresh; [|exact Hc]. intros ? ?; discriminate. }
    destruct (Hreg i l Hi) as (tab & Ht & _ & Hid). eauto.
  - eapply connect_pages_inj; [| |exact Hc]; intros; discriminate.
Qed.

Lemma reachable_wf m prt launcher targets connectTab s0 es s log :
  new m prt launcher targets connectTab = Some s0 ->
  run es s0 = Some (s, log) ->
  heap_wf s /\ registry_wf s.
Proof.
  intros Hnew Hrun.
  apply (run_invariant (fun s => heap_wf s /\ registry_wf s))
    with (es := es) (s := s0) (log := log); [|split|assumption].
  - intros e s1 s2 o [Hw Hr] He. split.
    + eapply exec_heap_wf; eassumption.
    + eapply exec_registry_wf; eassumption.
  - eapply new_heap_wf; eassumption.
  - eapply new_registry_wf; eassumption.
Qed.

(** X1. In every state a pool built by [new] can reach, the registry is
    consistent: every registered id has an entry, the client stored in that
    entry is the one connected to that very tab id, and two different ids
    never share an entry. *)
Theorem registry_is_consistent
  m prt launcher targets connectTab s0 es s log :
  new m prt launcher targets connectTab = Some s0 ->
  run es s0 = Some (s, log) ->
  forall o, tabs (pool s) = Some o ->
    (forall i, is_Some (JsObject.get i o) ->
       exists tab, entry s i = Some tab /\ tabId (client tab) = i) /\
    (forall i j l, JsObject.get i o = Some l -> JsObject.get j o = Some l ->
       i = j).
Proof.
  intros Hnew Hrun o Ho.
  destruct (reachable_wf _ _ _ _ _ _ _ _ _ Hnew Hrun) as [_ Hr].
  destruct (Hr o Ho) as [Hent Hinj]. split; [|assumption].
  intros i [l Hl]. unfold entry. rewrite Ho, Hl. eauto.
Qed.

Lemma witness_reachable :
  launched (Finite 1) = Some (one_tab (Finite 1)) /\
  run handoff (one_tab (Finite 1))
    = Some (state_after handoff (one_tab (Finite 1)),
            [Granted 0 client0; Enqueued 1; ReleaseCalled "T0";
             MarkedFree "T0"; Dequeued 1 "T0"]).
Proof. split; reflexivity. Qed.

Lemma registry_is_consistent_witness :
  let s := state_after handoff (one_tab (Finite 1)) in
  tabs (pool s) = Some [("T0", 0)] /\
  (forall i, is_Some (JsObject.get i [("T0", 0)]) ->
     exists tab, entry s i = Some tab /\ tabId (client tab) = i) /\
  (forall i j l, JsObject.get i [("T0", 0)] = Some l ->
     JsObject.get j [("T0", 0)] = Some l -> i = j).
Proof.
  intros s. split; [reflexivity|].
  exact (registry_is_consistent (Finite 1) 9222%N 1
           [ {| id := "T0"; type := "page" |};
             {| id := "BG"; type := "background_page" |} ]
           (fun _ => Some 0) (one_tab (Finite 1)) handoff s _
           eq_refl (proj2 witness_reachable) [("T0", 0)] eq_refl).
Defined.

(** *** The registry only grows *)

Lemma extends_refl o : extends o o.
Proof. split; auto. Qed.

Lemma extends_trans o1 o2 o3 : extends o1 o2 -> extends o2 o3 -> extends o1 o3.
Proof. intros [H1 L1] [H2 L2]. split; [auto|lia]. Qed.

Lemma length_set_ge (o : JsObject.t nat) i l :
  length o <= length (JsObject.set i l o).
Proof.
  induction o as [|[k v] r IH]; simpl; [lia|].
  destruct (String.eqb i k); simpl; lia.
Qed.

Lemma extends_set o i l : extends o (JsObject.set i l o).
Proof.
  split.
  - intros j [x Hx]. destruct (String.eqb_spec i j) as [<-|Hne].
    + rewrite get_set_eq. eauto.
    + rewrite get_set_ne by assumption. eauto.
  - rewrite !length_keys. apply length_set_ge.
Qed.

Lemma exec_extends e s s' out o o' :
  exec e s = Some (s', out) ->
  tabs (pool s) = Some o -> tabs (pool s') = Some o' -> extends o o'.
Proof.
  intros H Ho Ho'.
  destruct (exec_store_step _ _ _ _ H) as
    [_ [Ht|Ht] | l tab t _ _ Ht _ | l tab i _ _ Ht _ | i pr _ Ht];
    rewrite Ht, ?Ho in Ho'; simplify_eq; simpl in *; simplify_eq;
    auto using extends_refl, extends_set.
Qed.

Lemma exec_tabs_null e s s' out :
  exec e s = Some (s', out) -> tabs (pool s) = None -> tabs (pool s') = None.
Proof.
  intros H Ho.
  destruct (exec_store_step _ _ _ _ H) as
    [_ [Ht|Ht] | l tab t _ _ Ht _ | l tab i _ _ Ht _ | i pr _ Ht];
    rewrite Ht, ?Ho; reflexivity.
Qed.

(** X2. No method removes a tab from the registry or changes [maxTab]:
    along any run, as long as [destroyPoll] has not nulled the registry,
    every id registered before is still registered, the count of
    [Object.keys(this.tabs)] has not decreased, and [maxTab] is the value
    given to [new]. *)
Theorem registry_only_grows es s s' log o o' :
  run es s = Some (s', log) ->
  tabs (pool s) = Some o -> tabs (pool s') = Some o' ->
  (forall i, is_Some (JsObject.get i o) -> is_Some (JsObject.get i o')) /\
  length (JsObject.keys o) <= length (JsObject.keys o') /\
  maxTab (pool s') = maxTab (pool s).
Proof.
  intros Hrun Ho Ho'.
  assert (P : maxTab (pool s') = maxTab (pool s) /\
              forall o1, tabs (pool s') = Some o1 -> extends o o1).
  { apply (run_invariant
             (fun x => maxTab (pool x) = maxTab (pool s) /\
                       forall o1, tabs (pool x) = Some o1 -> extends o o1))
      with (es := es) (s := s) (log := log); [| |assumption].
    - intros e s1 s2 out [Hm Hx] He. split.
      + rewrite <- Hm. eapply exec_maxTab; eassumption.
      + intros o2 Ho2. destruct (tabs (pool s1)) as [o1|] eqn:Ho1.
        * eapply extends_trans; [now apply Hx|].
          eapply exec_extends; eassumption.
        * rewrite (exec_tabs_null _ _ _ _ He Ho1) in Ho2. discriminate.
    - split; [reflexivity|]. intros o1. rewrite Ho. intros [= <-].
      apply extends_refl. }
  destruct P as [Hm Hx]. destruct (Hx o' Ho') as [Hk Hl]. auto.
Qed.

Lemma registry_only_grows_witness :
  let s := one_tab (Finite 2) in
  let s' := state_after over_limit s in
  run over_limit s = Some (s', [Granted 0 client0]) /\
  tabs (pool s) = Some [("T0", 0)] /\
  tabs (pool s') = Some [("T0", 0); ("T1", 1); ("T2", 2)] /\
  (forall i, is_Some (JsObject.get i [("T0", 0)]) ->
     is_Some (JsObject.get i [("T0", 0); ("T1", 1); ("T2", 2)])) /\
  length (JsObject.keys [("T0", 0)])
    <= length (JsObject.keys [("T0", 0); ("T1", 1); ("T2", 2)]) /\
  maxTab (pool s') = maxTab (pool s).
Proof.
  intros s s'. do 3 (split; [reflexivity|]).
  exact (registry_only_grows over_limit s s' _ _ _ eq_refl eq_refl eq_refl).
Defined.

(** X3. An entry, once created, keeps its client for good, and its [free]
    flag is written in two places only: a segment that turns it from free to
    busy is a segment of [require] returning that entry's client, and a
    segment that turns it from busy to free is line 159 of [release]. *)
Theorem free_flag_discipline e s s' o l tab :
  exec e s = Some (s', o) ->
  heap s !! l = Some tab ->
  exists tab', heap s' !! l = Some tab' /\ client tab' = client tab /\
    (free tab = true -> free tab' = false ->
       exists t, In (Granted t (client tab)) o) /\
    (free tab = false -> free tab' = true ->
       exists i, In (MarkedFree i) o).
Proof.
  intros H Hl.
  destruct (exec_store_step _ _ _ _ H) as
    [Hh _ | l0 tab0 t Hl0 Hh _ Hin | l0 tab0 i Hl0 Hh _ Hin | i pr Hh _];
    rewrite Hh.
  - exists tab. split; [assumption|]. split; [reflexivity|].
    split; congruence.
  - destruct (decide (l0 = l)) as [->|Hne].
    + rewrite list_lookup_insert_eq by (eapply lookup_lt_Some; eassumption).
      eexists. split; [reflexivity|]. simplify_eq. simpl.
      split; [reflexivity|]. split; [eauto|congruence].
    + rewrite list_lookup_insert_ne by assumption.
      exists tab. split; [assumption|]. split; [reflexivity|].
      split; congruence.
  - destruct (decide (l0 = l)) as [->|Hne].
    + rewrite list_lookup_insert_eq by (eapply lookup_lt_Some; eassumption).
      eexists. split; [reflexivity|]. simplify_eq. simpl.
      split; [reflexivity|]. split; [congruence|eauto].
    + rewrite list_lookup_insert_ne by assumption.
      exists tab. split; [assumption|]. split; [reflexivity|].
      split; congruence.
  - exists tab. split.
    + rewrite lookup_app_l; [assumption|]. eapply lookup_lt_Some; eassumption.
    + split; [reflexivity|]. split; congruence.
Qed.

Lemma free_flag_discipline_witness :
  let s := state_after (saturate ++ [CallRelease "T0"]) (one_tab (Finite 1)) in
  let s' := state_after handoff (one_tab (Finite 1)) in
  let o := [MarkedFree "T0"; Dequeued 1 "T0"] in
  let tab := {| free := false; client := client0 |} in
  exec (NavigateReply 2 true) s = Some (s', o) /\
  heap s !! 0 = Some tab /\
  exists tab', heap s' !! 0 = Some tab' /\ client tab' = client tab /\
    (free tab = true -> free tab' = false ->
       exists t, In (Granted t (client tab)) o) /\
    (free tab = false -> free tab' = true ->
       exists i, In (MarkedFree i) o).
Proof.
  intros s s' o tab. split; [reflexivity|]. split; [reflexivity|].
  exact (free_flag_discipline (NavigateReply 2 true) s s' o 0 tab
           eq_refl eq_refl).
Defined.

(** ** Waiting happens only at the limit *)

Lemma lookup_resolve_any (ts : list Status) w i t x :
  resolve w i ts !! t = Some x ->
  ts !! t = Some x \/
  (ts !! t = Some (AwaitResolve None) /\ x = AwaitResolve (Some i)).
Proof.
  unfold resolve. destruct (ts !! w) as [[]|] eqn:E; auto.
  destruct r; auto. intros H.
  apply lookup_settle in H as [[-> ->]|H]; auto.
Qed.

(** Case analysis on where a status read after a segment comes from. *)
Ltac trace_status :=
  repeat match goal with
         | H : <[_ := _]> _ !! _ = Some _ |- _ =>
             apply lookup_settle in H as [[? ?]|H]; simplify_eq
         | H : (_ ++ [_]) !! _ = Some _ |- _ =>
             apply lookup_spawn in H as [H|H]; simplify_eq
         | H : resolve _ _ _ !! _ = Some _ |- _ =>
             apply lookup_resolve_any in H as [H|[H ?]]; simplify_eq
         end.

Lemma below_mono c c' m : c <= c' -> below c m = false -> below c' m = false.
Proof.
  destruct m as [n|]; simpl; [|discriminate].
  rewrite !Z.ltb_ge. lia.
Qed.

Lemma exec_full e s s' o :
  exec e s = Some (s', o) -> full s -> is_Some (tabs (pool s')) -> full s'.
Proof.
  intros H (o1 & Ho1 & Hb) [o2 Ho2]. exists o2. split; [assumption|].
  rewrite (exec_maxTab _ _ _ _ H).
  destruct (exec_extends _ _ _ _ _ _ H Ho1 Ho2) as [_ Hlen].
  eapply below_mono; eassumption.
Qed.

(** A call that waits after a segment waited before it, or the segment
    found the pool full. *)
Lemma exec_waiting e s s' o t st :
  exec e s = Some (s', o) ->
  status s' t = Some st -> waiting_for_tab st = true ->
  (exists st0, status s t = Some st0 /\ waiting_for_tab st0 = true) \/
  full s.
Proof.
  unfold status, full. intros H Hst Hw.
  destruct e; break_exec H;
    try match goal with who : Caller |- _ => destruct who end;
    simpl in *; trace_status; simpl in *; try discriminate; eauto.
Qed.

Lemma exec_waits_when_full e s s' o :
  (forall t st, status s t = Some st -> waiting_for_tab st = true ->
     tabs (pool s) = None \/ full s) ->
  exec e s = Some (s', o) ->
  forall t st, status s' t = Some st -> waiting_for_tab st = true ->
    tabs (pool s') = None \/ full s'.
Proof.
  intros Hinv H t st Hst Hw.
  assert (Hs : tabs (pool s) = None \/ full s).
  { destruct (exec_waiting _ _ _ _ _ _ H Hst Hw) as [(st0 & H0 & Hw0)|Hf];
      eauto. }
  destruct Hs as [Hn|Hf].
  - left. eapply exec_tabs_null; eassumption.
  - destruct (tabs (pool s')) eqn:E; [right|now left].
    eapply exec_full; eauto.
Qed.

(** X4. A [require] waits only at the limit: in every state a pool built by
    [new] can reach (and that [destroyPoll] has not nulled), if some call
    got [undefined] from [createTab] or is parked in the wait queue, then
    the number of registered tabs is not below [maxTab]. *)
Theorem waits_only_at_the_limit
  m prt launcher targets connectTab s0 es s log t st o :
  new m prt launcher targets connectTab = Some s0 ->
  run es s0 = Some (s, log) ->
  status s t = Some st -> waiting_for_tab st = true ->
  tabs (pool s) = Some o ->
  below (length (JsObject.keys o)) (maxTab (pool s)) = false /\
  maxTab (pool s) = m.
Proof.
  intros Hnew Hrun Hst Hw Ho.
  destruct (new_initial _ _ _ _ _ _ Hnew) as [_ Ht0].
  assert (Hinv : forall t st, status s t = Some st ->
            waiting_for_tab st = true -> tabs (pool s) = None \/ full s).
  { apply (run_invariant
             (fun x => forall t st, status x t = Some st ->
                 waiting_for_tab st = true -> tabs (pool x) = None \/ full x))
      with (es := es) (s := s0) (log := log); [| |assumption].
    - intros e s1 s2 out. apply exec_waits_when_full.
    - intros t' st'. unfold status. rewrite Ht0, lookup_nil. discriminate. }
  split.
  - destruct (Hinv t st Hst Hw) as [Hn|(o' & Ho' & Hb)]; congruence.
  - assert (Hm : maxTab (pool s) = maxTab (pool s0)).
    { apply (run_invariant (fun x => maxTab (pool x) = maxTab (pool s0)))
        with (es := es) (s := s0) (log := log); auto.
      intros e s1 s2 out Hm He. rewrite <- Hm.
      eapply exec_maxTab; eassumption. }
    rewrite Hm. unfold new in Hnew.
    destruct (connect_pages _ _ _ _) as [[o0 h0]|]; simplify_eq. reflexivity.
Qed.

Lemma waits_only_at_the_limit_witness :
  let s := state_after saturate (one_tab (Finite 1)) in
  launched (Finite 1) = Some (one_tab (Finite 1)) /\
  run saturate (one_tab (Finite 1))
    = Some (s, [Granted 0 client0; Enqueued 1]) /\
  status s 1 = Some (AwaitResolve None) /\
  waiting_for_tab (AwaitResolve None) = true /\
  tabs (pool s) = Some [("T0", 0)] /\
  below (length (JsObject.keys [("T0", 0)])) (maxTab (pool s)) = false /\
  maxTab (pool s) = Finite 1.
Proof.
  intros s. do 5 (split; [reflexivity|]).
  exact (waits_only_at_the_limit (Finite 1) 9222%N 1
           [ {| id := "T0"; type := "page" |};
             {| id := "BG"; type := "background_page" |} ]
           (fun _ => Some 0) (one_tab (Finite 1)) saturate s _ 1 _ _
           eq_refl eq_refl eq_refl eq_refl eq_refl).
Defined.

(** A property of the states and one of the logs, kept by every segment,
    hold at the end of a run. *)
Lemma run_log_invariant (P : State -> Prop) (Q : list Obs -> Prop) :
  Q [] -> (forall a b, Q a -> Q b -> Q (a ++ b)) ->
  (forall e s s' o, P s -> exec e s = Some (s', o) -> P s' /\ Q o) ->
  forall es s s' log, P s -> run es s = Some (s', log) -> P s' /\ Q log.
Proof.
  intros Hnil Happ Hstep.
  induction es as [|e r IH]; simpl; intros s s' log Hs H.
  - simplify_eq. auto.
  - destruct (exec e s) as [[s1 o1]|] eqn:He; [|discriminate].
    destruct (run r s1) as [[s2 o2]|] eqn:Hr; [|discriminate].
    simplify_eq. destruct (Hstep _ _ _ _ Hs He) as [Hs1 Ho1].
    destruct (IH _ _ _ Hs1 Hr) as [Hs2 Ho2]. auto.
Qed.

Lemma exec_enqueues_waiting e s s' o :
  exec e s = Some (s', o) -> enqueued o <> [] ->
  exists t, status s t = Some (AwaitCreateTab None).
Proof.
  unfold status. intros H Hne.
  destruct e; break_exec H; try (now exfalso; apply Hne); eauto.
Qed.

(** X5. With [maxTab = Infinity], the default, [require] never waits: in
    every run of such a pool no call ever gets [undefined] from [createTab]
    or is parked, nothing is ever put into [requireResolveTasks], and the
    array stays empty until [destroyPoll] drops it. *)
Theorem unlimited_pool_never_waits
  prt launcher targets connectTab s0 es s log :
  new Infinity prt launcher targets connectTab = Some s0 ->
  run es s0 = Some (s, log) ->
  (forall t st, status s t = Some st -> waiting_for_tab st = false) /\
  enqueued log = [] /\
  (forall q, requireResolveTasks (pool s) = Some q -> q = []).
Proof.
  intros Hnew Hrun.
  destruct (new_initial _ _ _ _ _ _ Hnew) as [Hq0 Ht0].
  assert (Hm0 : maxTab (pool s0) = Infinity).
  { unfold new in Hnew. destruct (connect_pages _ _ _ _) as [[o0 h0]|];
      simplify_eq. reflexivity. }
  set (P := fun x : State =>
              maxTab (pool x) = Infinity /\
              (forall t st, status x t = Some st ->
                 waiting_for_tab st = false) /\
              (forall q, requireResolveTasks (pool x) = Some q -> q = [])).
  assert (H : P s /\ enqueued log = []).
  { apply (run_log_invariant P (fun l => enqueued l = []))
      with (es := es) (s := s0); [reflexivity| | | |assumption].
    - intros a b Ha Hb. now rewrite enqueued_app, Ha, Hb.
    - intros e s1 s2 out (Hm & Hnw & Hq) He.
      assert (Hout : enqueued out = []).
      { destruct (enqueued out) eqn:E; [reflexivity|].
        destruct (exec_enqueues_waiting _ _ _ _ He) as [t Ht];
          [congruence|]. now apply Hnw in Ht. }
      split; [|assumption]. split; [|split].
      + rewrite <- Hm. eapply exec_maxTab; eassumption.
      + intros t st Hst. destruct (waiting_for_tab st) eqn:Hw; [|reflexivity].
        destruct (exec_waiting _ _ _ _ _ _ He Hst Hw)
          as [(st0 & H0 & Hw0)|(o' & _ & Hb)].
        * apply Hnw in H0. congruence.
        * rewrite Hm in Hb. discriminate.
      + intros q Hq2.
        destruct (exec_queue_step _ _ _ _ He) as
          [_ _ [Hs|Hs] | t q1 _ _ He1 _ | w q1 Hs Hl Hs' _ _];
          try congruence.
        * apply Hq. congruence.
        * apply Hq in Hs. subst q1. discriminate.
    - split; [assumption|]. split.
      + intros t st. unfold status. rewrite Ht0, lookup_nil. discriminate.
      + rewrite Hq0. now intros q [= <-]. }
  destruct H as [(_ & Hnw & Hq) Hlog]. auto.
Qed.

Lemma unlimited_pool_never_waits_witness :
  let s0 := one_tab Infinity in
  let es := [CallRequire; CallRequire; NewReply 1 (Some "T1");
             ConnectReply 1 (Some 1); Continue 1] in
  let s := state_after es s0 in
  let log := [Granted 0 client0;
              Granted 1 {| tabId := "T1"; protocol := 1 |}] in
  launched Infinity = Some s0 /\
  run es s0 = Some (s, log) /\
  (forall t st, status s t = Some st -> waiting_for_tab st = false) /\
  enqueued log = [] /\
  (forall q, requireResolveTasks (pool s) = Some q -> q = []).
Proof.
  intros s0 es s log. split; [reflexivity|]. split; [reflexivity|].
  exact (unlimited_pool_never_waits 9222%N 1
           [ {| id := "T0"; type := "page" |};
             {| id := "BG"; type := "background_page" |} ]
           (fun _ => Some 0) s0 es s log eq_refl eq_refl).
Defined.

(** ** Tabs created one at a time *)

Lemma creating_spawn st s :
  creating (spawn st s) = creating s + (if is_creating st then 1 else 0).
Proof.
  unfold creating, spawn. simpl. rewrite List.filter_app, length_app. simpl.
  destruct (is_creating st); reflexivity.
Qed.











(** ** Whole calls *)

Lemma lookup_last_task (ts : list Status) st : (ts ++ [st]) !! length ts = Some st.
Proof. rewrite lookup_app_r by lia. now rewrite Nat.sub_diag. Qed.

Lemma insert_last_task (ts : list Status) st st' :
  <[length ts := st']> (ts ++ [st]) = ts ++ [st'].
Proof. rewrite insert_app_r_alt by lia. now rewrite Nat.sub_diag. Qed.

(** X7. [require] on a pool that has no free tab and whose count is not
    below [maxTab] creates nothing and parks: after its continuation the
    call is suspended at line 141, it is the new first element of
    [requireResolveTasks], and the registry and the entries are unchanged. *)
Theorem require_parks_when_full s o q :
  tabs (pool s) = Some o ->
  requireResolveTasks (pool s) = Some q ->
  find (is_free (heap s) o) (JsObject.keys o) = None ->
  below (length (JsObject.keys o)) (maxTab (pool s)) = false ->
  let t := length (tasks s) in
  exists s', run [CallRequire; Continue t] s = Some (s', [Enqueued t]) /\
    status s' t = Some (AwaitResolve None) /\
    requireResolveTasks (pool s') = Some (t :: q) /\
    tabs (pool s') = Some o /\ heap s' = heap s /\
    forall w, w < t -> status s' w = status s w.
Proof.
  intros Ho Hq Hfind Hb t. simpl.
  unfold require_begin, createTab_begin. rewrite Ho, Hfind, Hb. simpl.
  unfold status at 1. simpl. fold t. unfold t at 1.
  rewrite lookup_last_task. unfold require_park. simpl. rewrite Hq.
  eexists. split; [reflexivity|].
  unfold status. simpl. unfold t. rewrite insert_last_task, lookup_last_task.
  repeat split; auto.
  intros w Hw. now rewrite lookup_app_l.
Qed.

Lemma require_parks_when_full_witness :
  let s := state_after [CallRequire] (one_tab (Finite 1)) in
  tabs (pool s) = Some [("T0", 0)] /\
  requireResolveTasks (pool s) = Some [] /\
  find (is_free (heap s) [("T0", 0)]) (JsObject.keys [("T0", 0)]) = None /\
  below (length (JsObject.keys [("T0", 0)])) (maxTab (pool s)) = false /\
  exists s', run [CallRequire; Continue 1] s = Some (s', [Enqueued 1]) /\
    status s' 1 = Some (AwaitResolve None) /\
    requireResolveTasks (pool s') = Some [1] /\
    tabs (pool s') = Some [("T0", 0)] /\ heap s' = heap s /\
    forall w, w < 1 -> status s' w = status s w.
Proof.
  intros s. do 4 (split; [reflexivity|]).
  exact (require_parks_when_full s [("T0", 0)] []
           eq_refl eq_refl eq_refl eq_refl).
Defined.

(** X8. [require] creates tabs lazily: on a pool that has no free tab and
    whose count is below [maxTab], once the browser has answered
    [chrome.New] with an id and connected it, the call returns the client of
    that new tab, whose entry is registered under the id and busy; when the
    id is new the registry has one more entry. *)
Theorem require_creates_when_none_free s o :
  tabs (pool s) = Some o ->
  find (is_free (heap s) o) (JsObject.keys o) = None ->
  below (length (JsObject.keys o)) (maxTab (pool s)) = true ->
  let t := length (tasks s) in
  forall i pr,
    let c := {| tabId := i; protocol := pr |} in
    exists s',
      run [CallRequire; NewReply t (Some i); ConnectReply t (Some pr);
           Continue t] s = Some (s', [Granted t c]) /\
      status s' t = Some (Fulfilled (VClient c)) /\
      entry s' i = Some {| free := false; client := c |} /\
      (JsObject.get i o = None ->
         tabCount s' = Some (S (length (JsObject.keys o)))).
Proof.
  intros Ho Hfind Hb t i pr c. subst t c. simpl.
  unfold require_begin, createTab_begin. rewrite Ho, Hfind, Hb. simpl.
  unfold status at 1. simpl. rewrite lookup_last_task. simpl.
  rewrite Ho. simpl.
  unfold status at 1. simpl. rewrite !insert_last_task, lookup_last_task.
  simpl.
  unfold status at 1. simpl. rewrite !insert_last_task, lookup_last_task.
  unfold require_take. simpl. rewrite Ho. simpl.
  rewrite get_set_eq, lookup_app_r by lia. rewrite Nat.sub_diag. simpl.
  eexists. split; [reflexivity|].
  unfold status, entry, tabCount. simpl.
  rewrite !insert_last_task, lookup_last_task.
  rewrite get_set_eq. split; [reflexivity|]. split.
  - rewrite insert_app_r_alt, lookup_app_r by lia.
    rewrite !Nat.sub_diag. reflexivity.
  - intros Hnew. now rewrite !length_keys, length_set_new.
Qed.

Lemma require_creates_when_none_free_witness :
  let s := state_after [CallRequire] (one_tab (Finite 2)) in
  let c := {| tabId := "T1"; protocol := 7 |} in
  tabs (pool s) = Some [("T0", 0)] /\
  find (is_free (heap s) [("T0", 0)]) (JsObject.keys [("T0", 0)]) = None /\
  below (length (JsObject.keys [("T0", 0)])) (maxTab (pool s)) = true /\
  exists s',
    run [CallRequire; NewReply 1 (Some "T1"); ConnectReply 1 (Some 7);
         Continue 1] s = Some (s', [Granted 1 c]) /\
    status s' 1 = Some (Fulfilled (VClient c)) /\
    entry s' "T1" = Some {| free := false; client := c |} /\
    (JsObject.get "T1" [("T0", 0)] = None -> tabCount s' = Some 2).
Proof.
  intros s c. do 3 (split; [reflexivity|]).
  exact (require_creates_when_none_free s [("T0", 0)]
           eq_refl eq_refl eq_refl "T1" 7).
Defined.

Lemma find_free_entry (h : list Tab) o i :
  find (is_free h o) (JsObject.keys o) = Some i ->
  exists l tab, JsObject.get i o = Some l /\ h !! l = Some tab /\
                free tab = true.
Proof.
  intros H. apply find_some in H as [_ H]. unfold is_free in H.
  destruct (JsObject.get i o) as [l|]; [|discriminate].
  destruct (h !! l) as [tab|] eqn:E; [|discriminate]. eauto.
Qed.

Lemma set_free_back tab : free tab = true -> set_free true (set_free false tab) = tab.
Proof. destruct tab as [f c]. simpl. intros ->. reflexivity. Qed.

(** X9. [require] followed by [release] of the tab it returned leaves the
    pool as it was: on a pool with a free tab and an empty wait queue,
    [require] returns the client of the first free tab at once, and after
    [release] of that tab (navigation fulfilled) both calls are fulfilled
    and the pool's fields and all entries are exactly those before. *)
Theorem require_then_release_restores s o i :
  tabs (pool s) = Some o ->
  requireResolveTasks (pool s) = Some [] ->
  find (is_free (heap s) o) (JsObject.keys o) = Some i ->
  let t := length (tasks s) in
  exists tab s',
    entry s i = Some tab /\ free tab = true /\
    run [CallRequire; CallRelease i; NavigateReply (S t) true] s
      = Some (s', [Granted t (client tab); ReleaseCalled i; MarkedFree i]) /\
    status s' t = Some (Fulfilled (VClient (client tab))) /\
    status s' (S t) = Some (Fulfilled VUndefined) /\
    pool s' = pool s /\ heap s' = heap s.
Proof.
  intros Ho Hq Hfind t. subst t.
  destruct (find_free_entry _ _ _ Hfind) as (l & tab & Hl & Htab & Hfree).
  assert (Hlt : l < length (heap s)) by (eapply lookup_lt_Some; eassumption).
  assert (Hlen : forall x : Status,
             S (length (tasks s)) = length (tasks s ++ [x])).
  { intros x. rewrite length_app. simpl. lia. }
  exists tab. unfold entry. rewrite Ho, Hl. simpl.
  unfold require_begin, require_take. rewrite Ho, Hfind, Hl, Htab. simpl.
  unfold release_begin. simpl. rewrite Ho, Hl. simpl.
  unfold status at 1. simpl.
  rewrite (Hlen (Fulfilled (VClient (client tab)))), lookup_last_task.
  unfold release_finish. simpl.
  rewrite list_lookup_insert_eq by assumption. rewrite Hq. simpl.
  eexists. split; [reflexivity|]. split; [assumption|].
  split; [reflexivity|].
  unfold status. simpl. rewrite insert_last_task.
  split; [|split; [|split]].
  - rewrite lookup_app_l by (rewrite length_app; simpl; lia).
    apply lookup_last_task.
  - apply lookup_last_task.
  - reflexivity.
  - rewrite list_insert_insert_eq, set_free_back by assumption.
    now apply list_insert_id.
Qed.

Lemma require_then_release_restores_witness :
  let s := one_tab (Finite 1) in
  tabs (pool s) = Some [("T0", 0)] /\
  requireResolveTasks (pool s) = Some [] /\
  find (is_free (heap s) [("T0", 0)]) (JsObject.keys [("T0", 0)])
    = Some "T0" /\
  exists tab s',
    entry s "T0" = Some tab /\ free tab = true /\
    run [CallRequire; CallRelease "T0"; NavigateReply 1 true] s
      = Some (s', [Granted 0 (client tab); ReleaseCalled "T0";
                   MarkedFree "T0"]) /\
    status s' 0 = Some (Fulfilled (VClient (client tab))) /\
    status s' 1 = Some (Fulfilled VUndefined) /\
    pool s' = pool s /\ heap s' = heap s.
Proof.
  intros s. do 3 (split; [reflexivity|]).
  exact (require_then_release_restores s [("T0", 0)] "T0"
           eq_refl eq_refl eq_refl).
Defined.

(** X10. A released tab goes to the caller that has waited longest: in a
    reachable state whose wait queue is not empty, [release] of a
    registered tab (navigation fulfilled) followed by the continuation of
    the call at the last index of [requireResolveTasks] fulfils both calls;
    the waiter receives the client of the released tab, whose entry is busy
    again, and the queue has lost that waiter. *)
Theorem release_hands_over_to_oldest_waiter
  m prt launcher targets connectTab s0 es s log q w i tab :
  new m prt launcher targets connectTab = Some s0 ->
  run es s0 = Some (s, log) ->
  requireResolveTasks (pool s) = Some q -> last q = Some w ->
  entry s i = Some tab ->
  let t := length (tasks s) in
  exists s',
    run [CallRelease i; NavigateReply t true; Continue w] s
      = Some (s', [ReleaseCalled i; MarkedFree i; Dequeued w i;
                   Granted w (client tab)]) /\
    status s' w = Some (Fulfilled (VClient (client tab))) /\
    status s' t = Some (Fulfilled VUndefined) /\
    entry s' i = Some {| free := false; client := client tab |} /\
    requireResolveTasks (pool s') = Some (removelast q) /\
    tabs (pool s') = tabs (pool s).
Proof.
  intros Hnew Hrun Hq Hlast He t. subst t.
  assert (Hw : status s w = Some (AwaitResolve None)).
  { destruct (new_queue_sound _ _ _ _ _ _ _ _ _ Hnew Hrun q Hq) as [_ Hin].
    apply Hin. apply last_Some in Hlast as [q' ->].
    apply in_or_app. right. now left. }
  unfold status in Hw.
  assert (Hwt : w < length (tasks s)) by (eapply lookup_lt_Some; eassumption).
  unfold entry in He.
  destruct (tabs (pool s)) as [o|] eqn:Ho; [|discriminate].
  destruct (JsObject.get i o) as [l|] eqn:Hl; [|discriminate].
  assert (Hlt : l < length (heap s)) by (eapply lookup_lt_Some; eassumption).
  simpl. unfold release_begin. rewrite ?Ho, Hl. simpl.
  unfold status at 1. simpl. rewrite lookup_last_task.
  unfold release_finish. simpl. rewrite He, Hq, Hlast. simpl.
  unfold resolve. rewrite lookup_app_l, Hw by assumption.
  unfold status at 1. simpl.
  rewrite list_lookup_insert_ne by lia.
  rewrite list_lookup_insert_eq by (rewrite length_app; simpl; lia).
  unfold require_take. simpl. rewrite ?Ho, Hl.
  rewrite list_lookup_insert_eq by assumption. simpl.
  eexists. split; [reflexivity|].
  unfold status, entry. simpl. rewrite ?Ho, Hl.
  split; [|split; [|split; [|split; reflexivity]]].
  - apply list_lookup_insert_eq.
    rewrite !length_insert, length_app. simpl. lia.
  - rewrite list_lookup_insert_ne by lia.
    apply list_lookup_insert_eq.
    rewrite length_insert, length_app. simpl. lia.
  - rewrite list_lookup_insert_eq; [reflexivity|].
    now rewrite length_insert.
Qed.

Lemma release_hands_over_to_oldest_waiter_witness :
  let s0 := one_tab (Finite 1) in
  let s := state_after saturate s0 in
  let tab := {| free := false; client := client0 |} in
  launched (Finite 1) = Some s0 /\
  run saturate s0 = Some (s, [Granted 0 client0; Enqueued 1]) /\
  requireResolveTasks (pool s) = Some [1] /\ last [1] = Some 1 /\
  entry s "T0" = Some tab /\
  exists s',
    run [CallRelease "T0"; NavigateReply 2 true; Continue 1] s
      = Some (s', [ReleaseCalled "T0"; MarkedFree "T0"; Dequeued 1 "T0";
                   Granted 1 (client tab)]) /\
    status s' 1 = Some (Fulfilled (VClient (client tab))) /\
    status s' 2 = Some (Fulfilled VUndefined) /\
    entry s' "T0" = Some {| free := false; client := client tab |} /\
    requireResolveTasks (pool s') = Some (removelast [1]) /\
    tabs (pool s') = tabs (pool s).
Proof.
  intros s0 s tab. do 5 (split; [reflexivity|]).
  exact (release_hands_over_to_oldest_waiter (Finite 1) 9222%N 1
           [ {| id := "T0"; type := "page" |};
             {| id := "BG"; type := "background_page" |} ]
           (fun _ => Some 0) s0 saturate s _ [1] 1 "T0" tab
           eq_refl eq_refl eq_refl eq_refl eq_refl).
Defined.

Lemma in_insert_index n k l x :
  In x (JsObject.insert_index n k l) <-> x = (n, k) \/ In x l.
Proof.
  induction l as [|[m k'] r IH]; simpl.
  - split; intros [H|H]; auto.
  - destruct (n <=? m)%N; simpl; [split; intros [H|H]; auto|].
    rewrite IH. split; intros H; tauto.
Qed.

Lemma in_keys_cons (k k' : string) (v : nat) (r : JsObject.t nat) :
  In k' (JsObject.keys ((k, v) :: r)) <-> k' = k \/ In k' (JsObject.keys r).
Proof.
  unfold JsObject.keys. simpl.
  destruct (JsObject.array_index k) as [n|]; simpl.
  - rewrite !in_app_iff, !in_map_iff. split.
    + intros [([n' x] & Hx & Hin)|H]; [|tauto]. simpl in Hx. subst x.
      apply in_insert_index in Hin as [Hin|Hin].
      * injection Hin as _ ->. now left.
      * right. left. exists (n', k'). auto.
    + intros [->|[([n' x] & Hx & Hin)|H]]; [| |tauto].
      * left. exists (n, k). split; [reflexivity|].
        apply in_insert_index. now left.
      * left. exists (n', x). split; [assumption|].
        apply in_insert_index. now right.
  - rewrite !in_app_iff. simpl. split; intros H; intuition congruence.
Qed.

(** [Object.keys] lists exactly the ids that have a property. *)
Lemma in_keys (o : JsObject.t nat) k :
  In k (JsObject.keys o) <-> is_Some (JsObject.get k o).
Proof.
  induction o as [|[k0 v] r IH].
  - simpl. split; [intros []|intros [x Hx]; discriminate].
  - rewrite in_keys_cons, IH. simpl.
    destruct (String.eqb_spec k k0) as [->|Hne].
    + split; [eauto|now left].
    + split; [intros [H|H]; [contradiction|assumption]|now right].
Qed.

(** X11. While a registered tab is free, [require] neither creates nor
    waits: in a reachable state with a free entry, the first segment of
    [require] fulfils the call with the client of a tab that was free,
    leaves that entry busy, and changes no other entry and no field of the
    pool. *)
Theorem require_takes_a_free_tab_at_once
  m prt launcher targets connectTab s0 es s log j tabj :
  new m prt launcher targets connectTab = Some s0 ->
  run es s0 = Some (s, log) ->
  entry s j = Some tabj -> free tabj = true ->
  let t := length (tasks s) in
  exists i tab s',
    entry s i = Some tab /\ free tab = true /\ tabId (client tab) = i /\
    exec CallRequire s = Some (s', [Granted t (client tab)]) /\
    status s' t = Some (Fulfilled (VClient (client tab))) /\
    entry s' i = Some {| free := false; client := client tab |} /\
    (forall k, k <> i -> entry s' k = entry s k) /\
    pool s' = pool s.
Proof.
  intros Hnew Hrun Hj Hfree t. subst t.
  destruct (reachable_wf _ _ _ _ _ _ _ _ _ Hnew Hrun) as [_ Hr].
  unfold entry in *.
  destruct (tabs (pool s)) as [o|] eqn:Ho; [|discriminate].
  destruct (Hr o Ho) as [Hent Hinj].
  destruct (find (is_free (heap s) o) (JsObject.keys o)) as [i|] eqn:Hfind.
  2:{ exfalso. destruct (JsObject.get j o) as [lj|] eqn:Hlj; [|discriminate].
      pose proof (find_none _ _ Hfind j) as Hn.
      rewrite in_keys, Hlj in Hn. specialize (Hn ltac:(eauto)).
      unfold is_free in Hn. rewrite Hlj, Hj in Hn. congruence. }
  destruct (find_free_entry _ _ _ Hfind) as (l & tab & Hl & Htab & Hf).
  destruct (Hent i l Hl) as (tab' & Htab' & Hid).
  assert (tab' = tab) as -> by congruence.
  exists i, tab. simpl.
  unfold require_begin, require_take. rewrite ?Ho, Hfind, Hl, Htab. simpl.
  eexists. split; [reflexivity|]. split; [assumption|].
  split; [assumption|]. split; [reflexivity|].
  unfold status. simpl. rewrite ?Ho, Hl, lookup_last_task.
  split; [reflexivity|]. split; [|split; [|reflexivity]].
  - apply list_lookup_insert_eq. eapply lookup_lt_Some; eassumption.
  - intros k Hk. destruct (JsObject.get k o) as [lk|] eqn:Hlk; [|reflexivity].
    apply list_lookup_insert_ne. intros ->. apply Hk. eauto.
Qed.

Lemma require_takes_a_free_tab_at_once_witness :
  let s0 := one_tab (Finite 1) in
  let s := state_after release_free s0 in
  let tab0 := {| free := true; client := client0 |} in
  launched (Finite 1) = Some s0 /\
  run release_free s0 = Some (s, [ReleaseCalled "T0"; MarkedFree "T0"]) /\
  entry s "T0" = Some tab0 /\ free tab0 = true /\
  exists i tab s',
    entry s i = Some tab /\ free tab = true /\ tabId (client tab) = i /\
    exec CallRequire s = Some (s', [Granted 1 (client tab)]) /\
    status s' 1 = Some (Fulfilled (VClient (client tab))) /\
    entry s' i = Some {| free := false; client := client tab |} /\
    (forall k, k <> i -> entry s' k = entry s k) /\
    pool s' = pool s.
Proof.
  intros s0 s tab0. do 4 (split; [reflexivity|]).
  exact (require_takes_a_free_tab_at_once (Finite 1) 9222%N 1
           [ {| id := "T0"; type := "page" |};
             {| id := "BG"; type := "background_page" |} ]
           (fun _ => Some 0) s0 release_free s _ "T0" tab0
           eq_refl eq_refl eq_refl eq_refl).
Defined.

(** ** Construction can fail *)

Lemma connect_pages_fails connectTab targets : forall o h,
  connect_pages connectTab targets o h = None <->
  exists tg, In tg targets /\ is_page tg /\ connectTab (id tg) = None.
Proof.
  induction targets as [|tg rest IH]; intros o h; simpl.
  - split; [discriminate|intros (tg & [] & _)].
  - destruct (String.eqb_spec (type tg) "page") as [Hp|Hp].
    + destruct (connectTab (id tg)) as [pr|] eqn:Hc.
      * rewrite IH. split.
        -- intros (tg' & Hin & H). exists tg'. auto.
        -- intros (tg' & [->|Hin] & Hp' & Hc'); [congruence|].
           exists tg'. auto.
      * split; [|reflexivity]. intros _. exists tg. auto.
    + rewrite IH. split.
      * intros (tg' & Hin & H). exists tg'. auto.
      * intros (tg' & [->|Hin] & Hp' & Hc'); [contradiction|].
        exists tg'. auto.
Qed.

(** X12. Construction is all or nothing.  [ChromeTabsPool.new] is rejected
    exactly when one of its awaits is: no port can be found, the launch of
    Chrome is rejected, [chrome.List] is rejected, or connecting to one of
    the listed targets of type "page" is rejected; targets of other types
    are never connected to and cannot make it fail.  A pool that is
    produced holds the port that was found, the launcher of that Chrome,
    the given [maxTab] ([Infinity] when it was left out), an empty wait
    queue and no call. *)
Theorem construction_is_all_or_nothing
  m sysFreePort launchChrome chromeList connectTab :
  (ChromeTabsPool.new m sysFreePort launchChrome chromeList connectTab
     = None <->
   sysFreePort = None \/
   exists prt, sysFreePort = Some prt /\
     (launchChrome prt = None \/
      exists launcher, launchChrome prt = Some launcher /\
        (chromeList prt = None \/
         exists targets, chromeList prt = Some targets /\
           exists tg, In tg targets /\ is_page tg /\
                      connectTab prt (id tg) = None))) /\
  (forall s,
     ChromeTabsPool.new m sysFreePort launchChrome chromeList connectTab
       = Some s ->
     exists prt launcher,
       sysFreePort = Some prt /\ launchChrome prt = Some launcher /\
       port (pool s) = Some prt /\ chromeLauncher (pool s) = Some launcher /\
       maxTab (pool s) = match m with Some n => n | None => Infinity end /\
       requireResolveTasks (pool s) = Some [] /\ tasks s = []).
Proof.
  unfold ChromeTabsPool.new. split.
  - destruct sysFreePort as [prt|]; [|split; auto].
    destruct (launchChrome prt) as [launcher|] eqn:Hl.
    2:{ split; [|reflexivity]. intros _. right. exists prt. auto. }
    destruct (chromeList prt) as [targets|] eqn:Hc.
    2:{ split; [|reflexivity]. intros _. right. exists prt.
        split; [reflexivity|]. right. exists launcher. auto. }
    pose proof (connect_pages_fails (connectTab prt) targets [] []) as Hf.
    unfold new. destruct (connect_pages _ _ _ _) as [[o h]|].
    + split; [discriminate|]. intros H. exfalso.
      assert (Hx : exists tg, In tg targets /\ is_page tg /\
                              connectTab prt (id tg) = None).
      { destruct H as [H|(prt' & Hp & [H|(la & _ & [H|(tg' & Ht & H)])])];
          simplify_eq. exact H. }
      apply Hf in Hx. discriminate.
    + split; [|reflexivity]. intros _. right. exists prt.
      split; [reflexivity|]. right. exists launcher.
      split; [assumption|]. right. exists targets.
      split; [assumption|]. now apply Hf.
  - intros s H.
    destruct sysFreePort as [prt|]; [|discriminate].
    destruct (launchChrome prt) as [launcher|] eqn:Hl; [|discriminate].
    destruct (chromeList prt) as [targets|]; [|discriminate].
    exists prt, launcher. unfold new in H.
    destruct (connect_pages _ _ _ _) as [[o h]|]; simplify_eq. simpl.
    repeat split; auto.
Qed.

Lemma construction_is_all_or_nothing_witness :
  let targets := [ {| id := "T0"; type := "page" |};
                   {| id := "BG"; type := "background_page" |} ] in
  let construct launchChrome connectTab :=
    ChromeTabsPool.new None (Some 9222%N) launchChrome
      (fun _ => Some targets) connectTab in
  construct (fun _ => Some 1) (fun _ _ => Some 0) = Some (one_tab Infinity) /\
  (exists prt launcher,
     Some 9222%N = Some prt /\ Some 1 = Some launcher /\
     port (pool (one_tab Infinity)) = Some prt /\
     chromeLauncher (pool (one_tab Infinity)) = Some launcher /\
     maxTab (pool (one_tab Infinity)) = Infinity /\
     requireResolveTasks (pool (one_tab Infinity)) = Some [] /\
     tasks (one_tab Infinity) = []) /\
  construct (fun _ => None) (fun _ _ => Some 0) = None /\
  construct (fun _ => Some 1)
    (fun _ i => if String.eqb i "T0" then None else Some 0) = None.
Proof.
  intros targets construct. split; [reflexivity|]. split; [|split].
  - exact (proj2 (construction_is_all_or_nothing None (Some 9222%N)
                    (fun _ => Some 1) (fun _ => Some targets)
                    (fun _ _ => Some 0))
             (one_tab Infinity) eq_refl).
  - apply (proj1 (construction_is_all_or_nothing None (Some 9222%N)
                    (fun _ => None) (fun _ => Some targets)
                    (fun _ _ => Some 0))).
    right. exists 9222%N. split; [reflexivity|]. now left.
  - apply (proj1 (construction_is_all_or_nothing None (Some 9222%N)
                    (fun _ => Some 1) (fun _ => Some targets)
                    (fun _ i => if String.eqb i "T0" then None else Some 0))).
    right. exists 9222%N. split; [reflexivity|]. right. exists 1.
    split; [reflexivity|]. right. exists targets. split; [reflexivity|].
    exists {| id := "T0"; type := "page" |}.
    split; [now left|]. split; reflexivity.
Defined.

(** ** What require hands out *)

Lemma exec_grant_registered e s s' out t c :
  registry_wf s -> exec e s = Some (s', out) -> In (Granted t c) out ->
  forall o, tabs (pool s') = Some o -> is_Some (JsObject.get (tabId c) o).
Proof.
  intros Hr H Hin o Ho.
  destruct e; break_exec H;
    repeat match goal with
           | Hin : _ \/ _ |- _ => destruct Hin as [Hin|Hin]
           | Hin : False |- _ => destruct Hin
           end; simplify_eq;
    match goal with
    | Ht : tabs (pool ?s) = Some ?o1, Hg : JsObject.get ?i ?o1 = Some ?l,
      Hh : heap ?s !! ?l = Some ?tab |- _ =>
        destruct (Hr o1 Ht) as [Hent _];
        destruct (Hent i l Hg) as (tab' & Htab' & Hid);
        assert (tab' = tab) as -> by congruence;
        rewrite Hid; eauto
    end.
Qed.

Lemma run_grants_registered es : forall s s' log pre,
  heap_wf s -> registry_wf s -> grants_registered s pre ->
  run es s = Some (s', log) ->
  grants_registered s' (pre ++ log).
Proof.
  induction es as [|e r IH]; simpl; intros s s' log pre Hw Hr Hg H.
  - simplify_eq. now rewrite app_nil_r.
  - destruct (exec e s) as [[s1 o1]|] eqn:He; [|discriminate].
    destruct (run r s1) as [[s2 o2]|] eqn:Hr2; [|discriminate].
    simplify_eq. rewrite app_assoc.
    eapply IH; [| | |exact Hr2].
    + eapply exec_heap_wf; eassumption.
    + eapply exec_registry_wf; eassumption.
    + intros t c Hin o Ho. apply in_app_iff in Hin as [Hin|Hin].
      * destruct (tabs (pool s)) as [o0|] eqn:Ho0.
        -- destruct (exec_extends _ _ _ _ _ _ He Ho0 Ho) as [Hk _].
           apply Hk. eapply Hg; eauto.
        -- rewrite (exec_tabs_null _ _ _ _ He Ho0) in Ho. discriminate.
      * eapply exec_grant_registered; eassumption.
Qed.

(** X13. A client obtained from [require] can always be given back: in
    every run of a pool built by [new], as long as [destroyPoll] has not
    nulled the registry, the [tabId] of every client that [require] has
    returned is a registered id, so [release] of it is not rejected at line
    158 but starts the navigation to about:blank. *)
Theorem granted_client_can_be_released
  m prt launcher targets connectTab s0 es s log t c o :
  new m prt launcher targets connectTab = Some s0 ->
  run es s0 = Some (s, log) ->
  In (Granted t c) log ->
  tabs (pool s) = Some o ->
  exists l s',
    JsObject.get (tabId c) o = Some l /\
    exec (CallRelease (tabId c)) s = Some (s', [ReleaseCalled (tabId c)]) /\
    status s' (length (tasks s)) = Some (AwaitNavigate (tabId c) l).
Proof.
  intros Hnew Hrun Hin Ho.
  assert (Hg : grants_registered s ([] ++ log)).
  { eapply run_grants_registered; [| | |exact Hrun].
    - eapply new_heap_wf; eassumption.
    - eapply new_registry_wf; eassumption.
    - intros ? ? []. }
  destruct (Hg t c Hin o Ho) as [l Hl]. exists l.
  simpl. unfold release_begin. rewrite Ho, Hl. eexists.
  split; [reflexivity|]. split; [reflexivity|].
  unfold status. simpl. apply lookup_last_task.
Qed.

Lemma granted_client_can_be_released_witness :
  let s0 := one_tab (Finite 2) in
  let s := state_after one_by_one s0 in
  let c := {| tabId := "T1"; protocol := 1 |} in
  let log := [Granted 0 client0; Granted 1 c; Enqueued 2] in
  launched (Finite 2) = Some s0 /\
  run one_by_one s0 = Some (s, log) /\
  In (Granted 1 c) log /\
  tabs (pool s) = Some [("T0", 0); ("T1", 1)] /\
  exists l s',
    JsObject.get (tabId c) [("T0", 0); ("T1", 1)] = Some l /\
    exec (CallRelease (tabId c)) s = Some (s', [ReleaseCalled (tabId c)]) /\
    status s' (length (tasks s)) = Some (AwaitNavigate (tabId c) l).
Proof.
  intros s0 s c log. split; [reflexivity|]. split; [reflexivity|].
  assert (Hin : In (Granted 1 c) log) by (right; left; reflexivity).
  split; [exact Hin|]. split; [reflexivity|].
  exact (granted_client_can_be_released (Finite 2) 9222%N 1
           [ {| id := "T0"; type := "page" |};
             {| id := "BG"; type := "background_page" |} ]
           (fun _ => Some 0) s0 one_by_one s log 1 c _
           eq_refl eq_refl Hin eq_refl).
Defined.

(** X14. The first segment of [require] never hands out a busy tab: when a
    call of [require] returns a client without suspending, that client is
    the one of a registered entry that was free when the call began. *)
Theorem require_call_grants_only_free_tabs s s' o t c :
  exec CallRequire s = Some (s', o) ->
  In (Granted t c) o ->
  t = length (tasks s) /\
  exists i tab, entry s i = Some tab /\ free tab = true /\ client tab = c.
Proof.
  intros H Hin. unfold entry.
  break_exec H;
    repeat match goal with
           | Hin : _ \/ _ |- _ => destruct Hin as [Hin|Hin]
           | Hin : False |- _ => destruct Hin
           end; simplify_eq.
  split; [reflexivity|].
  match goal with
  | Hf : find _ _ = Some ?i |- _ =>
      destruct (find_free_entry _ _ _ Hf) as (l' & tab' & Hl' & Ht' & Hfr);
      exists i
  end.
  exists tab'. rewrite Hl'. simplify_eq. auto.
Qed.

Lemma require_call_grants_only_free_tabs_witness :
  let s := one_tab (Finite 1) in
  let s' := state_after [CallRequire] s in
  exec CallRequire s = Some (s', [Granted 0 client0]) /\
  In (Granted 0 client0) [Granted 0 client0] /\
  0 = length (tasks s) /\
  exists i tab, entry s i = Some tab /\ free tab = true /\ client tab = client0.
Proof.
  intros s s'. split; [reflexivity|].
  assert (Hin : In (Granted 0 client0) [Granted 0 client0]) by now left.
  split; [exact Hin|].
  exact (require_call_grants_only_free_tabs s s' _ 0 client0 eq_refl Hin).
Defined.
